(** * gomatrix: the sync decomposer (sync.go) and the event listener

    A shallow embedding of [DefaultSyncer] (sync.go) and of
    [defaultListener] (the listener file), with the properties of the
    specification stated and settled against it.

    Conventions of the embedding.
    - A Go [map[string]T] is a [gmap string T].  [for k, v := range m]
      visits every entry once in an order the runtime chooses afresh for
      each loop; that order is an explicit argument (a list of keys) of
      every function that contains such a loop, and theorems quantify
      over it.  An entry removed before it is reached is not produced: a
      key of the order that is no longer in the map is skipped.
    - A [*T] that the code tests against [nil] is an [option T].
    - A channel is its buffer and its closed flag.  Sending on a closed
      channel panics; [recover] turns a panic into an error value.
    - [sync.RWMutex] is a reader count and a writer flag with the
      run-time errors its documentation states.  A function of the
      listener is the run of one goroutine during which no other
      goroutine operates on the lock.
    - A [select] takes one of the cases that can proceed, by a number
      that stands for the runtime's random choice, and waits when none
      can. *)

From Stdlib Require Import ZArith.
From stdpp Require Import base strings list gmap fin_maps.

Open Scope string_scope.
Open Scope list_scope.
Open Scope Z_scope.

(** ** Data model *)

(** A dynamically typed Go value, as [encoding/json] produces for
    [interface{}]: [nil], string, bool, number, slice and map. *)
#[local] Set Warnings "-register-all".
Inductive iface : Type :=
  | i_nil
  | i_string (s : string)
  | i_bool (b : bool)
  | i_number (n : Z)
  | i_slice (l : list iface)
  | i_map (l : list (string * iface)).

(** Modelled from the spec: the type [EventType] and the constant
    [MemberEventType] are declared outside src/; event types are the
    protocol's type strings and the membership type is "m.room.member". *)
Definition EventType : Type := string.

Definition MemberEventType : EventType := "m.room.member".

Definition MessageEventType : EventType := "m.room.message".

(** Modelled from the spec: the struct [Event] is declared outside src/.
    It has the fields the code reads and writes ([Type], [StateKey],
    [Content], [RoomID]) and the metadata the spec names (sender,
    timestamp, identifier). *)
Record Event : Type := mkEvent {
  StateKey : option string;
  Sender : string;
  Type_ : EventType;
  Timestamp : Z;
  ID : string;
  RoomID : string;
  Content : gmap string iface
}.

(** [event.RoomID = roomID] on the loop variable. *)
Definition setRoomID (roomID : string) (e : Event) : Event :=
  {| StateKey := StateKey e; Sender := Sender e; Type_ := Type_ e;
     Timestamp := Timestamp e; ID := ID e; RoomID := roomID;
     Content := Content e |}.

(** Modelled from the spec: the struct [RespSync] is declared outside
    src/.  Per category it holds the event lists the code ranges over:
    [Rooms.Join[id].{State,Timeline,Ephemeral}.Events],
    [Rooms.Invite[id].State.Events], [Rooms.Leave[id].Timeline.Events]. *)
Record JoinedRoom : Type := mkJoined {
  jState : list Event;
  jTimeline : list Event;
  jEphemeral : list Event
}.

Record InvitedRoom : Type := mkInvited {
  iState : list Event
}.

Record LeftRoom : Type := mkLeft {
  lState : list Event;
  lTimeline : list Event
}.

Record RespSync : Type := mkRespSync {
  NextBatch : string;
  AccountData : list Event;
  Presence : list Event;
  Join : gmap string JoinedRoom;
  Invite : gmap string InvitedRoom;
  Leave : gmap string LeftRoom
}.

(** [delete(resp.Rooms.Join, roomID); delete(resp.Rooms.Invite, roomID)] *)
Definition deleteRoom (roomID : string) (resp : RespSync) : RespSync :=
  {| NextBatch := NextBatch resp;
     AccountData := AccountData resp;
     Presence := Presence resp;
     Join := delete roomID (Join resp);
     Invite := delete roomID (Invite resp);
     Leave := Leave resp |}.

(** ** Errors *)

Inductive ctx_error : Type := Canceled | DeadlineExceeded.

Inductive error : Type :=
  | ErrContext (c : ctx_error)
      (* what [ctx.Err()] returns once [ctx.Done()] is closed *)
  | ErrProcessResponsePanicked (userID since r : string)
      (* fmt.Errorf("ProcessResponse panicked! userID=%s since=%s panic=%s...") *)
  | ErrCallPanicked (r : string)
      (* fmt.Errorf("Call listener panicked! panic=%s...") *)
  | ErrOther (msg : string).
      (* any other error value, e.g. a transport failure *)

(** ** Channels of [*Event] *)

Record chan : Type := mkChan {
  queue : list (option Event);
  closed : bool
}.

(** Code that may panic while it sends on a channel: the channel is
    threaded through, a panic carries its value and stops the rest. *)
Inductive result (A : Type) : Type :=
  | Normal (a : A)
  | Panic (r : string).
Arguments Normal {A} a.
Arguments Panic {A} r.

Definition M (A : Type) : Type := chan -> result A * chan.

Definition ret {A} (a : A) : M A := fun c => (Normal a, c).

Definition bind {A B} (m : M A) (k : A -> M B) : M B :=
  fun c => match m c with
           | (Normal a, c') => k a c'
           | (Panic r, c') => (Panic r, c')
           end.

Notation "m1 >>> m2" := (bind m1 (fun _ => m2))
  (at level 100, right associativity).

(** [ch <- p]: panics when the channel is closed. *)
Definition send (p : option Event) : M unit :=
  fun c => if closed c
           then (Panic "send on closed channel", c)
           else (Normal tt, {| queue := queue c ++ [p]; closed := false |}).

(** [for _, x := range xs { body }] over a slice. *)
Fixpoint for_each {A} (xs : list A) (body : A -> M unit) : M unit :=
  match xs with
  | [] => ret tt
  | x :: xs' => body x >>> for_each xs' body
  end.

(** [for k, v := range m { body }] over a map that the body does not
    change, visited in [order]. *)
Fixpoint for_range {V} (order : list string) (m : gmap string V)
    (body : string -> V -> M unit) : M unit :=
  match order with
  | [] => ret tt
  | k :: ks =>
      match m !! k with
      | Some v => body k v >>> for_range ks m body
      | None => for_range ks m body
      end
  end.

(** An order in which the runtime may range over [m]: every key once. *)
Definition range_order {V} (order : list string) (m : gmap string V) : Prop :=
  NoDup order ∧ ∀ k, k ∈ order ↔ is_Some (m !! k).

(** The orders of the four map loops of one [ProcessResponse] call. *)
Record orders : Type := mkOrders {
  scanOrder : list string;    (* shouldProcessResponse: resp.Rooms.Join *)
  joinOrder : list string;    (* ProcessResponse: res.Rooms.Join *)
  inviteOrder : list string;  (* ProcessResponse: res.Rooms.Invite *)
  leaveOrder : list string    (* ProcessResponse: res.Rooms.Leave *)
}.

(** ** sync.go *)

Record DefaultSyncer : Type := mkSyncer {
  UserID : string;
  eventsChan : chan
}.

Definition NewDefaultSyncer (userID : string) (eventsChan : chan) : DefaultSyncer :=
  {| UserID := userID; eventsChan := eventsChan |}.

(** The condition of line 103:
    [e.Type == MemberEventType && e.StateKey != nil && *e.StateKey == s.UserID] *)
Definition isOwnMember (userID : string) (e : Event) : bool :=
  bool_decide (Type_ e = MemberEventType) &&
  match StateKey e with
  | Some k => bool_decide (k = userID)
  | None => false
  end.

(** The inner loop of [shouldProcessResponse] (lines 101-119) for the
    room [roomID] with events [events], at the iterations
    [i = n-1, ..., 0]. *)
Fixpoint scanTimeline (userID roomID : string) (events : list Event)
    (n : nat) (resp : RespSync) : RespSync :=
  match n with
  | O => resp
  | S i =>
      match events !! i with
      | None => resp (* index out of range: not reached for n <= len *)
      | Some e =>
          if isOwnMember userID e then
            match Content e !! "membership" with
            | Some (i_string mship) =>
                if bool_decide (mship = "join") then
                  match Join resp !! roomID with
                  | None => scanTimeline userID roomID events i resp
                  | Some _ => deleteRoom roomID resp (* break *)
                  end
                else scanTimeline userID roomID events i resp
            | _ => scanTimeline userID roomID events i resp (* !ok: continue *)
            end
          else scanTimeline userID roomID events i resp
      end
  end.

(** The outer loop (lines 100-120), ranging over [resp.Rooms.Join] in
    [order] while entries are deleted from it. *)
Fixpoint scanRooms (userID : string) (order : list string)
    (resp : RespSync) : RespSync :=
  match order with
  | [] => resp
  | roomID :: rest =>
      match Join resp !! roomID with
      | None => scanRooms userID rest resp
      | Some roomData =>
          scanRooms userID rest
            (scanTimeline userID roomID (jTimeline roomData)
               (length (jTimeline roomData)) resp)
      end
  end.

Definition shouldProcessResponse (s : DefaultSyncer) (resp : RespSync)
    (since : string) (order : list string) : bool * RespSync :=
  if bool_decide (since = "") then (false, resp)
  else (true, scanRooms (UserID s) order resp).

(** The five emission loops of [ProcessResponse] (lines 51-83).  Each
    send passes the address of the loop variable, after [RoomID] has
    been assigned in that variable (the response keeps its own copy);
    what the channel records is the event that the variable holds at the
    moment of the send. *)
Definition emitJoined (roomID : string) (roomData : JoinedRoom) : M unit :=
  for_each (jState roomData) (fun event => send (Some (setRoomID roomID event))) >>>
  for_each (jTimeline roomData) (fun event => send (Some (setRoomID roomID event))) >>>
  for_each (jEphemeral roomData) (fun event => send (Some (setRoomID roomID event))).

Definition emitInvited (roomID : string) (roomData : InvitedRoom) : M unit :=
  for_each (iState roomData) (fun event => send (Some (setRoomID roomID event))).

Definition emitLeft (roomID : string) (roomData : LeftRoom) : M unit :=
  for_each (lTimeline roomData) (fun event => send (Some (setRoomID roomID event))).

Definition emitAll (res : RespSync) (o : orders) : M unit :=
  for_each (AccountData res) (fun e => send (Some e)) >>>
  for_each (Presence res) (fun e => send (Some e)) >>>
  for_range (joinOrder o) (Join res) emitJoined >>>
  for_range (inviteOrder o) (Invite res) emitInvited >>>
  for_range (leaveOrder o) (Leave res) emitLeft.

(** [ProcessResponse]: the response as the call leaves it, the channel
    after the sends, and the returned error. *)
Definition ProcessResponse (s : DefaultSyncer) (res : RespSync)
    (since : string) (o : orders) : RespSync * chan * option error :=
  match shouldProcessResponse s res since (scanOrder o) with
  | (false, res') => (res', eventsChan s, None)
  | (true, res') =>
      match emitAll res' o (eventsChan s) with
      | (Normal _, c) => (res', c, None)
      | (Panic r, c) =>
          (res', c, Some (ErrProcessResponsePanicked (UserID s) since r))
      end
  end.

(** [time.Duration] counts nanoseconds. *)
Definition Second : Z := 1000000000.

Definition OnFailedSync (s : DefaultSyncer) (res : option RespSync)
    (err : error) : Z * option error :=
  (10 * Second, None).


(** ** sync.RWMutex

    The documented contract of Go's [sync.RWMutex]: any number of
    readers or one writer; [Unlock] of a mutex that is not locked for
    writing and [RUnlock] of one that is not locked for reading are
    fatal run-time errors, which [recover] does not intercept. *)

Record RWMutex : Type := mkRWMutex {
  readers : nat;
  writer : bool
}.

Inductive outcome (A : Type) : Type :=
  | Returns (a : A)
  | Blocks                 (* waits for a lock that nobody will release *)
  | Fatal (msg : string).  (* the runtime aborts the process *)
Arguments Returns {A} a.
Arguments Blocks {A}.
Arguments Fatal {A} msg.

Definition RLock (m : RWMutex) : outcome RWMutex :=
  if writer m then Blocks
  else Returns {| readers := S (readers m); writer := false |}.

Definition RUnlock (m : RWMutex) : outcome RWMutex :=
  match readers m with
  | O => Fatal "sync: RUnlock of unlocked RWMutex"
  | S n => Returns {| readers := n; writer := writer m |}
  end.

Definition Lock (m : RWMutex) : outcome RWMutex :=
  if writer m then Blocks
  else match readers m with
       | O => Returns {| readers := O; writer := true |}
       | S _ => Blocks
       end.

Definition Unlock (m : RWMutex) : outcome RWMutex :=
  if writer m then Returns {| readers := readers m; writer := false |}
  else Fatal "sync: Unlock of unlocked RWMutex".

(** ** The listener *)

(** A callback: a name, by which its invocations are logged, and what
    the body does on an event: return ([None]) or panic with a value. *)
Record Fn : Type := mkFn {
  fn_name : string;
  fn_body : Event -> option string
}.

(** [EventListenerCallback] is a function value, which may be [nil]. *)
Definition EventListenerCallback : Type := option Fn.

Record defaultListener : Type := mkListener {
  listeners : gmap EventType (list EventListenerCallback);
  listenersRWMut : RWMutex;
  events : chan;
  err : option error
}.

Definition NewDefaultListener (eventsChan : chan) : defaultListener :=
  {| listeners := ∅;
     listenersRWMut := {| readers := O; writer := false |};
     events := eventsChan;
     err := None |}.

Definition setMutex (m : RWMutex) (l : defaultListener) : defaultListener :=
  {| listeners := listeners l; listenersRWMut := m;
     events := events l; err := err l |}.

Definition setListeners (ls : gmap EventType (list EventListenerCallback))
    (l : defaultListener) : defaultListener :=
  {| listeners := ls; listenersRWMut := listenersRWMut l;
     events := events l; err := err l |}.

Definition setErr (e : option error) (l : defaultListener) : defaultListener :=
  {| listeners := listeners l; listenersRWMut := listenersRWMut l;
     events := events l; err := e |}.

Definition setEvents (c : chan) (l : defaultListener) : defaultListener :=
  {| listeners := listeners l; listenersRWMut := listenersRWMut l;
     events := c; err := err l |}.

(** [On] (lines 76-85).  [make([]EventListenerCallback, 1)] is a slice
    of length one holding the zero value, a nil callback. *)
Definition On (l : defaultListener) (eType : EventType)
    (callback : EventListenerCallback) : outcome defaultListener :=
  match Lock (listenersRWMut l) with
  | Returns m1 =>
      let callsList :=
        match listeners l !! eType with
        | Some cl => cl
        | None => [None]
        end in
      let callsList := callsList ++ [callback] in
      let l1 := setListeners (<[eType := callsList]> (listeners l))
                  (setMutex m1 l) in
      match Unlock m1 with
      | Returns m2 => Returns (setMutex m2 l1)
      | Blocks => Blocks
      | Fatal msg => Fatal msg
      end
  | Blocks => Blocks
  | Fatal msg => Fatal msg
  end.

(** The loop of [call] under its deferred [recover] (lines 99-108): the
    returned error and the names of the callbacks entered, in order.
    Calling a nil function value panics. *)
Fixpoint callAll (callsList : list EventListenerCallback) (e : Event)
    : option error * list string :=
  match callsList with
  | [] => (None, [])
  | None :: _ =>
      (Some (ErrCallPanicked
               "runtime error: invalid memory address or nil pointer dereference"),
       [])
  | Some fn :: rest =>
      match fn_body fn e with
      | Some r => (Some (ErrCallPanicked r), [fn_name fn])
      | None => let '(er, log) := callAll rest e in (er, fn_name fn :: log)
      end
  end.

(** [call] (lines 87-109): the listener afterwards, the returned error
    and the callbacks entered. *)
Definition call (l : defaultListener) (e : option Event)
    : outcome (defaultListener * option error * list string) :=
  match e with
  | None => Returns (l, None, [])
  | Some ev =>
      match RLock (listenersRWMut l) with
      | Returns m1 =>
          let found := listeners l !! Type_ ev in
          match Unlock m1 with
          | Returns m2 =>
              match found with
              | None => Returns (setMutex m2 l, None, [])
              | Some callsList =>
                  let '(er, log) := callAll callsList ev in
                  Returns (setMutex m2 l, er, log)
              end
          | Blocks => Blocks
          | Fatal msg => Fatal msg
          end
      | Blocks => Blocks
      | Fatal msg => Fatal msg
      end
  end.

(** The cases of the [select] of [scanEvents], in the order of the
    source. *)
Inductive select_case : Type :=
  | CaseEvents   (* case e, ok := <-l.events *)
  | CaseStop     (* case <-l.stopCh *)
  | CaseDone.    (* case <-ctx.Done() *)

Record Context : Type := mkContext {
  ctxErr : ctx_error
}.

(** What the other goroutines offer to the [select]: the context is
    cancelled ([ctx.Done()] is closed), and a call of [stop] (lines
    129-131) waits to hand over its signal on the unbuffered [stopCh]. *)
Record signals : Type := mkSignals {
  cancelled : bool;
  stopping : bool
}.

(** A receive from the events channel can proceed when an event is
    queued or the channel is closed. *)
Definition eventsReady (c : chan) : bool :=
  match queue c with
  | [] => closed c
  | _ :: _ => true
  end.

(** The cases of the [select] that can proceed. *)
Definition readyCases (sig : signals) (c : chan) : list select_case :=
  (if eventsReady c then [CaseEvents] else []) ++
  (if stopping sig then [CaseStop] else []) ++
  (if cancelled sig then [CaseDone] else []).

(** Go's [select]: among the cases that can proceed the runtime takes
    one by a random choice, here the number [n]; when none can proceed
    the [select] waits. *)
Definition pick (ready : list select_case) (n : nat) : option select_case :=
  ready !! Nat.modulo n (length ready).

(** Where a run of [scanEvents] stands. *)
Inductive scan : Type :=
  | Exited (l : defaultListener) (e : option error) (log : list string)
  | Selecting (l : defaultListener) (log : list string).

(** [scanEvents] (lines 111-127) under the signals [sig], with the
    events that the channel of [l] holds, along the random choices
    [choices] of its successive [select]s.  With no choice left, or
    with no case that can proceed, the loop waits in [select]. *)
Fixpoint scanEvents (ctx : Context) (sig : signals) (l : defaultListener)
    (choices : list nat) (log : list string) : outcome scan :=
  match choices with
  | [] => Returns (Selecting l log)
  | n :: rest =>
      match pick (readyCases sig (events l)) n with
      | None => Returns (Selecting l log)
      | Some CaseStop => Returns (Exited l (err l) log)
      | Some CaseDone =>
          Returns (Exited l (Some (ErrContext (ctxErr ctx))) log)
      | Some CaseEvents =>
          match queue (events l) with
          | [] =>
              (* ok = false: the channel is closed and empty *)
              if closed (events l) then Returns (Exited l (err l) log)
              else Returns (Selecting l log)
          | e :: q =>
              let l0 :=
                setEvents {| queue := q; closed := closed (events l) |} l in
              match call l0 e with
              | Returns (l1, er, log1) =>
                  let l2 := setErr er l1 in
                  match er with
                  | Some _ => Returns (Exited l2 er (log ++ log1))
                  | None => scanEvents ctx sig l2 rest (log ++ log1)
                  end
              | Blocks => Blocks
              | Fatal msg => Fatal msg
              end
          end
      end
  end.

(** [On] for each registration in turn, starting from [l]. *)
Fixpoint registerAll (l : defaultListener) (regs : list (EventType * Fn))
    : outcome defaultListener :=
  match regs with
  | [] => Returns l
  | (eType, fn) :: rest =>
      match On l eType (Some fn) with
      | Returns l' => registerAll l' rest
      | Blocks => Blocks
      | Fatal msg => Fatal msg
      end
  end.

(** ** Vocabulary of the statements *)

(** An [m.room.member] event of the account [userID] whose content
    field "membership" is the string "join". *)
Definition isOwnJoin (userID : string) (e : Event) : bool :=
  isOwnMember userID e &&
  match Content e !! "membership" with
  | Some (i_string mship) => bool_decide (mship = "join")
  | _ => false
  end.

Definition hasOwnJoin (userID : string) (timeline : list Event) : bool :=
  existsb (isOwnJoin userID) timeline.

(** The reading of the join-flood property in the specification: going
    through the timeline from the most recent event to the oldest, the
    first membership event of the account says "join". *)
Fixpoint firstOwnMemberIsJoin (userID : string) (recentFirst : list Event) : bool :=
  match recentFirst with
  | [] => false
  | e :: older =>
      if isOwnMember userID e then isOwnJoin userID e
      else firstOwnMemberIsJoin userID older
  end.

Definition spec_joinBeforeOthers (userID : string) (timeline : list Event) : bool :=
  firstOwnMemberIsJoin userID (reverse timeline).

(** What the channel receives for a list of events of room [roomID]. *)
Definition stamped (roomID : string) (evs : list Event) : list (option Event) :=
  (λ e, Some (setRoomID roomID e)) <$> evs.

Definition joinedBlock (p : string * JoinedRoom) : list (option Event) :=
  stamped p.1 (jState p.2) ++ stamped p.1 (jTimeline p.2) ++
  stamped p.1 (jEphemeral p.2).

Definition invitedBlock (p : string * InvitedRoom) : list (option Event) :=
  stamped p.1 (iState p.2).

Definition leftBlock (p : string * LeftRoom) : list (option Event) :=
  stamped p.1 (lTimeline p.2).

(** The entries of [m] at the keys of [order], in that order. *)
Definition entries {V} (order : list string) (m : gmap string V)
    : list (string * V) :=
  omap (λ k, (λ v, (k, v)) <$> m !! k) order.

(** The sequence of the five emission loops, written out. *)
Definition emitted (res : RespSync) (o : orders) : list (option Event) :=
  (Some <$> AccountData res) ++ (Some <$> Presence res) ++
  (entries (joinOrder o) (Join res) ≫= joinedBlock) ++
  (entries (inviteOrder o) (Invite res) ≫= invitedBlock) ++
  (entries (leaveOrder o) (Leave res) ≫= leftBlock).

(** The list that [On] keeps for [eType] after the registrations
    [regs]: none without a registration, else the nil callback that
    [make] put first and then the callbacks in registration order. *)
Definition storedFor (eType : EventType) (regs : list (EventType * Fn))
    : option (list EventListenerCallback) :=
  match filter (λ p, p.1 = eType) regs with
  | [] => None
  | fs => Some (None :: (Some ∘ snd <$> fs))
  end.

(** The callbacks registered for [eType], in registration order. *)
Definition registeredFor (eType : EventType) (regs : list (EventType * Fn))
    : list Fn :=
  snd <$> filter (λ p, p.1 = eType) regs.

Definition unlocked : RWMutex := {| readers := O; writer := false |}.

(** ** Sample data *)

Definition bot : string := "@bot:example.org".

Definition joinEv : Event :=
  {| StateKey := Some bot; Sender := bot; Type_ := MemberEventType;
     Timestamp := 1; ID := "$join"; RoomID := "";
     Content := {[ "membership" := i_string "join" ]} |}.

Definition leaveEv : Event :=
  {| StateKey := Some bot; Sender := bot; Type_ := MemberEventType;
     Timestamp := 2; ID := "$leave"; RoomID := "";
     Content := {[ "membership" := i_string "leave" ]} |}.

Definition msgEv : Event :=
  {| StateKey := None; Sender := "@alice:example.org";
     Type_ := MessageEventType;
     Timestamp := 3; ID := "$msg"; RoomID := "";
     Content := {[ "body" := i_string "hello" ]} |}.

Definition topicEv : Event :=
  {| StateKey := Some ""; Sender := "@alice:example.org";
     Type_ := "m.room.topic";
     Timestamp := 0; ID := "$topic"; RoomID := "";
     Content := {[ "topic" := i_string "tea" ]} |}.

Definition openChan : chan := {| queue := []; closed := false |}.

Definition syncer : DefaultSyncer := NewDefaultSyncer bot openChan.

(** A room that the account left and joined again within one response,
    the join being the older event. *)
Definition roomLeftAfterJoin : JoinedRoom :=
  {| jState := [topicEv]; jTimeline := [joinEv; msgEv; leaveEv];
     jEphemeral := [] |}.

(** A room with a message only. *)
Definition roomQuiet : JoinedRoom :=
  {| jState := [topicEv]; jTimeline := [msgEv]; jEphemeral := [] |}.

(** A room that the account has just joined. *)
Definition roomJoined : JoinedRoom :=
  {| jState := [topicEv]; jTimeline := [joinEv; msgEv]; jEphemeral := [] |}.

Definition respOf (rooms : gmap string JoinedRoom) : RespSync :=
  {| NextBatch := "s73"; AccountData := []; Presence := [];
     Join := rooms; Invite := ∅; Leave := ∅ |}.

Definition ordersOf (ks : list string) : orders :=
  {| scanOrder := ks; joinOrder := ks; inviteOrder := []; leaveOrder := [] |}.

(** Both rooms are scanned; the quiet one is ranged over afterwards. *)
Definition scanBothSendQuiet : orders :=
  {| scanOrder := ["!quiet:example.org"; "!tea:example.org"];
     joinOrder := ["!quiet:example.org"];
     inviteOrder := []; leaveOrder := [] |}.

Definition oddMemberEv : Event :=
  {| StateKey := Some bot; Sender := bot; Type_ := MemberEventType;
     Timestamp := 4; ID := "$odd"; RoomID := "";
     Content := {[ "membership" := i_number 1 ]} |}.

(** A room whose membership event of the account has a number where
    the membership string belongs. *)
Definition roomOdd : JoinedRoom :=
  {| jState := []; jTimeline := [msgEv; oddMemberEv]; jEphemeral := [] |}.

Definition boomFn : Fn := {| fn_name := "boom"; fn_body := λ _, Some "boom" |}.

Definition printFn : Fn := {| fn_name := "print"; fn_body := λ _, None |}.

Definition background : Context := {| ctxErr := Canceled |}.

Definition onlyCancelled : signals := {| cancelled := true; stopping := false |}.

Definition onlyStopping : signals := {| cancelled := false; stopping := true |}.

(** ** Further vocabulary *)

(** The scan drops room [k]: it is joined and its timeline holds a
    "join" membership event of the account. *)
Definition dropped (userID : string) (resp : RespSync) (k : string) : bool :=
  match Join resp !! k with
  | Some rd => hasOwnJoin userID (jTimeline rd)
  | None => false
  end.

(** [m] is a run of sends of [xs]: on an open channel it appends [xs]
    and completes; on a closed one it panics at the first send, if
    there is one, and leaves the channel as it is. *)
Definition sends (m : M unit) (xs : list (option Event)) : Prop :=
  ∀ c, m c =
    if closed c
    then (match xs with
          | [] => Normal tt
          | _ :: _ => Panic "send on closed channel"
          end, c)
    else (Normal tt, {| queue := queue c ++ xs; closed := false |}).

(** The listener and the log of entered callbacks that a run of
    [scanEvents] has reached. *)
Definition scan_listener (r : scan) : defaultListener :=
  match r with
  | Exited l _ _ => l
  | Selecting l _ => l
  end.

Definition scan_log (r : scan) : list string :=
  match r with
  | Exited _ _ log => log
  | Selecting _ log => log
  end.

(** A listener on which an earlier run recorded a fault. *)
Definition faultedListener (c : chan) : defaultListener :=
  setErr (Some (ErrCallPanicked "boom")) (NewDefaultListener c).

(** * Properties *)

(** ** Sends on a channel *)

Lemma for_each_send_open (f : Event → Event) evs c :
  closed c = false →
  for_each evs (λ e, send (Some (f e))) c =
    (Normal tt, {| queue := queue c ++ ((λ e, Some (f e)) <$> evs);
                   closed := false |}).
Proof.
  revert c. induction evs as [|e evs IH]; intros c Hc; simpl.
  - destruct c as [q cl]; simpl in *; subst. by rewrite app_nil_r.
  - unfold bind, send at 1. rewrite Hc. rewrite IH by done. simpl.
    by rewrite <- app_assoc.
Qed.

Lemma for_each_send_closed (f : Event → Event) evs c :
  closed c = true →
  (for_each evs (λ e, send (Some (f e))) c).2 = c.
Proof.
  intros Hc. destruct evs as [|e evs]; simpl; [done|].
  unfold bind, send. by rewrite Hc.
Qed.

Lemma bind_open {A B} (m : M A) (k : A → M B) c a c' :
  m c = (Normal a, c') → bind m k c = k a c'.
Proof. intros H. unfold bind. by rewrite H. Qed.

Lemma emitJoined_open r rd c :
  closed c = false →
  emitJoined r rd c =
    (Normal tt, {| queue := queue c ++ joinedBlock (r, rd); closed := false |}).
Proof.
  intros Hc. unfold emitJoined, joinedBlock, stamped. simpl.
  erewrite bind_open; [|by apply (for_each_send_open (setRoomID r))].
  erewrite bind_open; [|by apply (for_each_send_open (setRoomID r))].
  rewrite (for_each_send_open (setRoomID r)) by done. simpl.
  by rewrite <- !app_assoc.
Qed.

Lemma emitInvited_open r rd c :
  closed c = false →
  emitInvited r rd c =
    (Normal tt, {| queue := queue c ++ invitedBlock (r, rd); closed := false |}).
Proof.
  intros Hc. unfold emitInvited, invitedBlock, stamped.
  by rewrite (for_each_send_open (setRoomID r)).
Qed.

Lemma emitLeft_open r rd c :
  closed c = false →
  emitLeft r rd c =
    (Normal tt, {| queue := queue c ++ leftBlock (r, rd); closed := false |}).
Proof.
  intros Hc. unfold emitLeft, leftBlock, stamped.
  by rewrite (for_each_send_open (setRoomID r)).
Qed.

(** A map loop whose body appends [block k v] sends the blocks of the
    entries in the order of the loop. *)
Lemma for_range_open {V} (body : string → V → M unit)
    (block : string * V → list (option Event)) order (m : gmap string V) c :
  (∀ k v c0, closed c0 = false →
     body k v c0 = (Normal tt, {| queue := queue c0 ++ block (k, v);
                                  closed := false |})) →
  closed c = false →
  for_range order m body c =
    (Normal tt, {| queue := queue c ++ (entries order m ≫= block);
                   closed := false |}).
Proof.
  intros Hbody. revert c.
  induction order as [|k ks IH]; intros c Hc; simpl.
  - destruct c as [q cl]; simpl in *; subst. by rewrite app_nil_r.
  - unfold entries. simpl. destruct (m !! k) as [v|] eqn:Hk; simpl.
    + erewrite bind_open; [|by apply Hbody].
      rewrite IH by done. simpl. by rewrite <- app_assoc.
    + by apply IH.
Qed.

Lemma for_range_closed {V} (body : string → V → M unit) order
    (m : gmap string V) c :
  (∀ k v, (body k v c).2 = c) →
  (for_range order m body c).2 = c.
Proof.
  intros Hbody. induction order as [|k ks IH]; simpl; [done|].
  destruct (m !! k) as [v|]; [|done].
  unfold bind. specialize (Hbody k v).
  destruct (body k v c) as [[a|r] c']; simpl in *; subst; done.
Qed.

Lemma emitAll_open res o c :
  closed c = false →
  emitAll res o c =
    (Normal tt, {| queue := queue c ++ emitted res o; closed := false |}).
Proof.
  intros Hc. unfold emitAll, emitted.
  erewrite bind_open; [|by apply (for_each_send_open id)].
  erewrite bind_open; [|by apply (for_each_send_open id)].
  erewrite bind_open;
    [|by apply (for_range_open _ joinedBlock);
         [intros; by apply emitJoined_open|]].
  erewrite bind_open;
    [|by apply (for_range_open _ invitedBlock);
         [intros; by apply emitInvited_open|]].
  rewrite (for_range_open _ leftBlock);
    [|intros; by apply emitLeft_open|done].
  simpl. by rewrite <- !app_assoc.
Qed.

Lemma emitAll_closed res o c :
  closed c = true → (emitAll res o c).2 = c.
Proof.
  intros Hc. unfold emitAll.
  assert (Hb : ∀ {A B} (m : M A) (k : A → M B),
             (m c).2 = c → (∀ a, (k a c).2 = c) → (bind m k c).2 = c).
  { intros A B m k Hm Hk. unfold bind.
    destruct (m c) as [[a|r] c']; simpl in *; subst; [apply Hk|done]. }
  apply Hb; [by apply (for_each_send_closed id)|intros _].
  apply Hb; [by apply (for_each_send_closed id)|intros _].
  apply Hb.
  { apply for_range_closed. intros k v. unfold emitJoined.
    apply Hb; [by apply (for_each_send_closed (setRoomID k))|intros _].
    apply Hb; [by apply (for_each_send_closed (setRoomID k))|intros _].
    by apply (for_each_send_closed (setRoomID k)). }
  intros _. apply Hb.
  { apply for_range_closed. intros k v.
    by apply (for_each_send_closed (setRoomID k)). }
  intros _. apply for_range_closed. intros k v.
  by apply (for_each_send_closed (setRoomID k)).
Qed.

(** ** The join scan *)

Lemma isOwnJoin_spec u e :
  isOwnJoin u e = true ↔
  Type_ e = MemberEventType ∧ StateKey e = Some u ∧
  Content e !! "membership" = Some (i_string "join").
Proof.
  unfold isOwnJoin, isOwnMember. split.
  - intros H. apply andb_prop in H as [H1 H2]. apply andb_prop in H1 as [Ht Hk].
    apply bool_decide_eq_true in Ht.
    destruct (StateKey e) as [k|]; [|done].
    apply bool_decide_eq_true in Hk. subst k.
    destruct (Content e !! "membership") as [[| m | | | |]|]; try done.
    apply bool_decide_eq_true in H2. by subst.
  - intros (Ht & Hk & Hc). rewrite Hk, Hc.
    by rewrite !bool_decide_eq_true_2.
Qed.

Lemma hasOwnJoin_spec u tl :
  hasOwnJoin u tl = true ↔
  ∃ e, e ∈ tl ∧ Type_ e = MemberEventType ∧ StateKey e = Some u ∧
       Content e !! "membership" = Some (i_string "join").
Proof.
  unfold hasOwnJoin. rewrite existsb_exists. split.
  - intros (e & Hin & He). exists e. split; [by apply list_elem_of_In|].
    by apply isOwnJoin_spec.
  - intros (e & Hin & He). exists e. split; [by apply list_elem_of_In|].
    by apply isOwnJoin_spec.
Qed.

(** One step of the inner loop acts on [isOwnJoin] alone. *)
Lemma scanTimeline_step u r evs i e resp :
  evs !! i = Some e →
  scanTimeline u r evs (S i) resp =
    if isOwnJoin u e
    then match Join resp !! r with
         | Some _ => deleteRoom r resp
         | None => scanTimeline u r evs i resp
         end
    else scanTimeline u r evs i resp.
Proof.
  intros He. simpl. rewrite He. unfold isOwnJoin.
  destruct (isOwnMember u e); simpl; [|done].
  destruct (Content e !! "membership") as [[| m | | | |]|]; try done.
Qed.

Lemma scanTimeline_absent u r evs n resp :
  Join resp !! r = None → scanTimeline u r evs n resp = resp.
Proof.
  intros Hr. induction n as [|i IH]; [done|].
  destruct (evs !! i) as [e|] eqn:He.
  - rewrite (scanTimeline_step _ _ _ _ e) by done. rewrite Hr.
    by destruct (isOwnJoin u e).
  - simpl. by rewrite He.
Qed.

Lemma scanTimeline_spec u r evs n resp rd :
  (n ≤ length evs)%nat →
  Join resp !! r = Some rd →
  scanTimeline u r evs n resp =
    if hasOwnJoin u (take n evs) then deleteRoom r resp else resp.
Proof.
  intros Hn Hr. induction n as [|i IH]; [done|].
  destruct (lookup_lt_is_Some_2 evs i) as [e He]; [lia|].
  rewrite (scanTimeline_step _ _ _ _ e) by done.
  rewrite (take_S_r _ _ e) by done.
  unfold hasOwnJoin in *. rewrite existsb_app. simpl. rewrite orb_false_r.
  rewrite Hr. destruct (isOwnJoin u e).
  - by rewrite orb_true_r.
  - rewrite orb_false_r. apply IH. lia.
Qed.

(** What the scan of the room at the head of the order does. *)
Lemma scanRooms_cons u r rest resp :
  scanRooms u (r :: rest) resp =
    match Join resp !! r with
    | Some rd =>
        if hasOwnJoin u (jTimeline rd)
        then scanRooms u rest (deleteRoom r resp)
        else scanRooms u rest resp
    | None => scanRooms u rest resp
    end.
Proof.
  simpl. destruct (Join resp !! r) as [rd|] eqn:Hr; [|done].
  rewrite (scanTimeline_spec _ _ _ _ _ rd) by done.
  rewrite firstn_all. by destruct (hasOwnJoin u (jTimeline rd)).
Qed.

(** The scan leaves everything but [Join] and [Invite] alone. *)
Lemma scanRooms_frame u order resp :
  NextBatch (scanRooms u order resp) = NextBatch resp ∧
  AccountData (scanRooms u order resp) = AccountData resp ∧
  Presence (scanRooms u order resp) = Presence resp ∧
  Leave (scanRooms u order resp) = Leave resp.
Proof.
  revert resp. induction order as [|r rest IH]; intros resp; [done|].
  rewrite scanRooms_cons.
  destruct (Join resp !! r) as [rd|]; [|apply IH].
  destruct (hasOwnJoin u (jTimeline rd)); [|apply IH].
  destruct (IH (deleteRoom r resp)) as (? & ? & ? & ?). done.
Qed.

(** The joined entries after the scan. *)
Lemma scanRooms_Join u order resp k :
  Join (scanRooms u order resp) !! k =
    match Join resp !! k with
    | Some rd =>
        if bool_decide (k ∈ order) && hasOwnJoin u (jTimeline rd)
        then None else Some rd
    | None => None
    end.
Proof.
  revert resp. induction order as [|r rest IH]; intros resp.
  - simpl. by destruct (Join resp !! k).
  - rewrite scanRooms_cons.
    destruct (decide (k = r)) as [->|Hne].
    + rewrite (bool_decide_eq_true_2 (r ∈ r :: rest)) by apply list_elem_of_here.
      destruct (Join resp !! r) as [rd|] eqn:Hr.
      * destruct (hasOwnJoin u (jTimeline rd)) eqn:Hj; rewrite IH.
        -- simpl. by rewrite lookup_delete_eq.
        -- rewrite Hr, Hj. by rewrite andb_false_r.
      * rewrite IH. by rewrite Hr.
    + assert (bool_decide (k ∈ r :: rest) = bool_decide (k ∈ rest)) as ->.
      { apply bool_decide_ext. rewrite elem_of_cons.
        split; [by intros [?|?]|by right]. }
      destruct (Join resp !! r) as [rd|] eqn:Hr; [|by rewrite IH].
      destruct (hasOwnJoin u (jTimeline rd)); rewrite IH; [|done].
      simpl. by rewrite lookup_delete_ne.
Qed.

(** The invited entries after the scan. *)
Lemma scanRooms_Invite u order resp k :
  Invite (scanRooms u order resp) !! k =
    match Join resp !! k with
    | Some rd =>
        if bool_decide (k ∈ order) && hasOwnJoin u (jTimeline rd)
        then None else Invite resp !! k
    | None => Invite resp !! k
    end.
Proof.
  revert resp. induction order as [|r rest IH]; intros resp.
  - simpl. by destruct (Join resp !! k).
  - rewrite scanRooms_cons.
    destruct (decide (k = r)) as [->|Hne].
    + rewrite (bool_decide_eq_true_2 (r ∈ r :: rest)) by apply list_elem_of_here.
      destruct (Join resp !! r) as [rd|] eqn:Hr.
      * destruct (hasOwnJoin u (jTimeline rd)) eqn:Hj; rewrite IH.
        -- simpl. by rewrite !lookup_delete_eq.
        -- rewrite Hr, Hj. by rewrite andb_false_r.
      * rewrite IH. by rewrite Hr.
    + assert (bool_decide (k ∈ r :: rest) = bool_decide (k ∈ rest)) as ->.
      { apply bool_decide_ext. rewrite elem_of_cons.
        split; [by intros [?|?]|by right]. }
      destruct (Join resp !! r) as [rd|] eqn:Hr; [|by rewrite IH].
      destruct (hasOwnJoin u (jTimeline rd)); rewrite IH; [|done].
      simpl. by rewrite !lookup_delete_ne.
Qed.

Lemma RespSync_eq (a b : RespSync) :
  NextBatch a = NextBatch b → AccountData a = AccountData b →
  Presence a = Presence b → Join a = Join b → Invite a = Invite b →
  Leave a = Leave b → a = b.
Proof. destruct a, b; simpl; intros; by subst. Qed.

(** A room that the scan is going to delete may as well be deleted
    beforehand. *)
Lemma scanRooms_deleteRoom u order resp r rd :
  r ∈ order → Join resp !! r = Some rd → hasOwnJoin u (jTimeline rd) = true →
  scanRooms u order (deleteRoom r resp) = scanRooms u order resp.
Proof.
  intros Hin Hr Hj.
  destruct (scanRooms_frame u order resp) as (E1 & E2 & E3 & E4).
  destruct (scanRooms_frame u order (deleteRoom r resp)) as (F1 & F2 & F3 & F4).
  simpl in F1, F2, F3, F4.
  apply RespSync_eq; try congruence.
  - apply map_eq. intros k. rewrite !scanRooms_Join. simpl.
    destruct (decide (k = r)) as [->|Hne].
    + rewrite lookup_delete_eq, Hr, Hj. by rewrite bool_decide_eq_true_2.
    + by rewrite lookup_delete_ne.
  - apply map_eq. intros k. rewrite !scanRooms_Invite. simpl.
    destruct (decide (k = r)) as [->|Hne].
    + rewrite !lookup_delete_eq, Hr, Hj. by rewrite bool_decide_eq_true_2.
    + by rewrite !lookup_delete_ne.
Qed.

(** ** Entries of a map in the order of a loop *)

Lemma elem_of_entries {V} order (m : gmap string V) k v :
  (k, v) ∈ entries order m ↔ k ∈ order ∧ m !! k = Some v.
Proof.
  unfold entries. rewrite list_elem_of_omap. split.
  - intros (k' & Hin & Hk). destruct (m !! k') as [v'|] eqn:E; [|done].
    simpl in Hk. by simplify_eq.
  - intros [Hin Hk]. exists k. split; [done|]. by rewrite Hk.
Qed.

Lemma entries_NoDup {V} order (m : gmap string V) :
  NoDup order → NoDup (entries order m).
Proof.
  induction 1 as [|k ks Hk Hks IH]; [constructor|].
  unfold entries. simpl. destruct (m !! k) as [v|]; simpl; [|apply IH].
  constructor; [|apply IH].
  intros Hin. apply (elem_of_entries ks m k v) in Hin. by destruct Hin.
Qed.

Lemma entries_range_order {V} order (m : gmap string V) :
  range_order order m → entries order m ≡ₚ map_to_list m.
Proof.
  intros [Hnd Hdom]. apply NoDup_Permutation.
  - by apply entries_NoDup.
  - apply NoDup_map_to_list.
  - intros [k v]. rewrite elem_of_entries, elem_of_map_to_list. split.
    + by intros [_ ?].
    + intros Hk. split; [|done]. apply Hdom. by exists v.
Qed.

Lemma elem_of_stamped r evs p :
  p ∈ stamped r evs → ∃ e, p = Some (setRoomID r e) ∧ e ∈ evs.
Proof.
  unfold stamped. rewrite list_elem_of_fmap. intros (e & -> & He). eauto.
Qed.

Lemma joinedBlock_RoomID p x :
  x ∈ joinedBlock p → ∃ e, x = Some e ∧ RoomID e = p.1.
Proof.
  unfold joinedBlock. rewrite !elem_of_app.
  intros [H|[H|H]]; apply elem_of_stamped in H as (e & -> & _); eauto.
Qed.

Lemma invitedBlock_RoomID p x :
  x ∈ invitedBlock p → ∃ e, x = Some e ∧ RoomID e = p.1.
Proof.
  unfold invitedBlock. intros H.
  apply elem_of_stamped in H as (e & -> & _); eauto.
Qed.

Lemma leftBlock_RoomID p x :
  x ∈ leftBlock p → ∃ e, x = Some e ∧ RoomID e = p.1.
Proof.
  unfold leftBlock. intros H.
  apply elem_of_stamped in H as (e & -> & _); eauto.
Qed.

(** An event sent under the identifier of a room that is neither joined
    nor invited comes from the account data, the presence list or the
    room's left entry. *)
Lemma emitted_absent_room res o r e :
  Join res !! r = None → Invite res !! r = None →
  Some e ∈ emitted res o → RoomID e = r →
  e ∈ AccountData res ∨ e ∈ Presence res ∨
  ∃ lr, Leave res !! r = Some lr ∧ e ∈ setRoomID r <$> lTimeline lr.
Proof.
  intros Hj Hi Hin Hr. unfold emitted in Hin.
  rewrite !elem_of_app in Hin.
  destruct Hin as [H|[H|[H|[H|H]]]].
  - left. apply list_elem_of_fmap in H as (e' & [= ->] & H). done.
  - right; left. apply list_elem_of_fmap in H as (e' & [= ->] & H). done.
  - apply list_elem_of_bind in H as ([k rd] & Hb & Hk).
    apply elem_of_entries in Hk as [_ Hk].
    apply joinedBlock_RoomID in Hb as (e' & [= <-] & Hid). simpl in Hid.
    congruence.
  - apply list_elem_of_bind in H as ([k rd] & Hb & Hk).
    apply elem_of_entries in Hk as [_ Hk].
    apply invitedBlock_RoomID in Hb as (e' & [= <-] & Hid). simpl in Hid.
    congruence.
  - right; right.
    apply list_elem_of_bind in H as ([k lr] & Hb & Hk).
    apply elem_of_entries in Hk as [_ Hk].
    pose proof Hb as Hb'.
    apply leftBlock_RoomID in Hb' as (e' & [= <-] & Hid). simpl in Hid.
    subst k. exists lr. split; [congruence|].
    unfold leftBlock, stamped in Hb. simpl in Hb.
    apply list_elem_of_fmap in Hb as (e0 & [= ->] & He0).
    apply list_elem_of_fmap. exists e0. by rewrite Hr.
Qed.

(** [ProcessResponse] for a non-empty [since], by the state of the
    channel. *)
Lemma ProcessResponse_open s res since o :
  since ≠ "" → closed (eventsChan s) = false →
  ProcessResponse s res since o =
    (scanRooms (UserID s) (scanOrder o) res,
     {| queue := queue (eventsChan s) ++
                 emitted (scanRooms (UserID s) (scanOrder o) res) o;
        closed := false |},
     None).
Proof.
  intros Hs Hc. unfold ProcessResponse, shouldProcessResponse.
  rewrite bool_decide_eq_false_2 by done.
  by rewrite emitAll_open.
Qed.

Lemma ProcessResponse_closed s res since o :
  since ≠ "" → closed (eventsChan s) = true →
  ∃ er, ProcessResponse s res since o =
    (scanRooms (UserID s) (scanOrder o) res, eventsChan s, er).
Proof.
  intros Hs Hc. unfold ProcessResponse, shouldProcessResponse.
  rewrite bool_decide_eq_false_2 by done.
  pose proof (emitAll_closed (scanRooms (UserID s) (scanOrder o) res) o _ Hc) as H.
  destruct (emitAll _ o (eventsChan s)) as [[a|r] c]; simpl in H; subst; eauto.
Qed.

(** Two rooms, one of them just joined: the quiet one alone is sent,
    its state event before its timeline event. *)
Example ProcessResponse_two_rooms :
  ProcessResponse syncer
    (respOf {[ "!tea:example.org" := roomLeftAfterJoin;
               "!quiet:example.org" := roomQuiet ]})
    "s72" scanBothSendQuiet
  = (respOf {[ "!quiet:example.org" := roomQuiet ]},
     {| queue := [Some (setRoomID "!quiet:example.org" topicEv);
                  Some (setRoomID "!quiet:example.org" msgEv)];
        closed := false |},
     None).
Proof. vm_compute. reflexivity. Qed.

(** On a closed channel the first send panics and the deferred function
    of lines 45-49 returns the error. *)
Example ProcessResponse_closed_channel :
  ProcessResponse (NewDefaultSyncer bot {| queue := []; closed := true |})
    (respOf {[ "!quiet:example.org" := roomQuiet ]})
    "s72" (ordersOf ["!quiet:example.org"])
  = (respOf {[ "!quiet:example.org" := roomQuiet ]},
     {| queue := []; closed := true |},
     Some (ErrProcessResponsePanicked bot "s72" "send on closed channel")).
Proof. vm_compute. reflexivity. Qed.

Lemma range_order_check {V} order (m : gmap string V) :
  NoDup order → list_to_set order =@{gset string} dom m →
  range_order order m.
Proof.
  intros Hnd Hdom. split; [done|]. intros k.
  by rewrite <- elem_of_dom, <- Hdom, elem_of_list_to_set.
Qed.

(** ** sync.go: the claims *)

(** C1. Initial-sync suppression: with the empty since value,
    [shouldProcessResponse] answers false without touching the
    response, and [ProcessResponse] sends nothing on the events channel,
    leaves the response as it was and returns a nil error, whatever the
    response holds and whatever the state of the channel. *)
Theorem initial_sync_suppressed s res o :
  shouldProcessResponse s res "" (scanOrder o) = (false, res) ∧
  ProcessResponse s res "" o = (res, eventsChan s, None).
Proof. split; reflexivity. Qed.

(** C2. For a non-empty since value, a joined room whose timeline holds
    an [m.room.member] event with the account's user ID as state key and
    the string "join" as content field "membership" is deleted from the
    joined and from the invited category before anything is sent: the
    call gives what it gives on the response without these two entries,
    and whatever is sent under the room's identifier comes from the
    account data, the presence list or the room's left entry. *)
Theorem joined_room_with_own_join_dropped s res since o r rd :
  since ≠ "" →
  range_order (scanOrder o) (Join res) →
  Join res !! r = Some rd →
  (∃ e, e ∈ jTimeline rd ∧ Type_ e = MemberEventType ∧
        StateKey e = Some (UserID s) ∧
        Content e !! "membership" = Some (i_string "join")) →
  ∃ res' c' er sent,
    ProcessResponse s res since o = (res', c', er) ∧
    Join res' !! r = None ∧ Invite res' !! r = None ∧
    ProcessResponse s (deleteRoom r res) since o = (res', c', er) ∧
    queue c' = queue (eventsChan s) ++ sent ∧
    ∀ e, Some e ∈ sent → RoomID e = r →
      e ∈ AccountData res ∨ e ∈ Presence res ∨
      ∃ lr, Leave res !! r = Some lr ∧ e ∈ setRoomID r <$> lTimeline lr.
Proof.
  intros Hs [_ Hdom] Hr Hj. apply hasOwnJoin_spec in Hj.
  assert (Hin : r ∈ scanOrder o) by (apply Hdom; by exists rd).
  set (res' := scanRooms (UserID s) (scanOrder o) res).
  assert (HJ : Join res' !! r = None).
  { unfold res'. rewrite scanRooms_Join, Hr, Hj.
    by rewrite bool_decide_eq_true_2. }
  assert (HI : Invite res' !! r = None).
  { unfold res'. rewrite scanRooms_Invite, Hr, Hj.
    by rewrite bool_decide_eq_true_2. }
  assert (Hdel : scanRooms (UserID s) (scanOrder o) (deleteRoom r res) = res')
    by by apply (scanRooms_deleteRoom _ _ _ _ rd).
  destruct (scanRooms_frame (UserID s) (scanOrder o) res) as (_ & Ea & Ep & El).
  destruct (closed (eventsChan s)) eqn:Hc.
  - destruct (ProcessResponse_closed s res since o Hs Hc) as [er Her].
    exists res', (eventsChan s), er, [].
    split; [done|]. split; [done|]. split; [done|]. split.
    { unfold ProcessResponse, shouldProcessResponse in *.
      rewrite bool_decide_eq_false_2 in * by done. by rewrite Hdel. }
    split; [by rewrite app_nil_r|]. intros e He. by apply elem_of_nil in He.
  - exists res', {| queue := queue (eventsChan s) ++ emitted res' o;
                    closed := false |}, None, (emitted res' o).
    split; [by apply ProcessResponse_open|].
    split; [done|]. split; [done|]. split.
    { rewrite ProcessResponse_open by done. by rewrite Hdel. }
    split; [done|]. intros e He Hid.
    destruct (emitted_absent_room res' o r e HJ HI He Hid) as [H|[H|H]].
    + left. fold res' in Ea. by rewrite <- Ea.
    + right; left. fold res' in Ep. by rewrite <- Ep.
    + right; right. fold res' in El. by rewrite <- El.
Qed.

Lemma joined_room_with_own_join_dropped_witness :
  "s72" ≠ "" ∧
  range_order (scanOrder (ordersOf ["!new:example.org"]))
    (Join (respOf {[ "!new:example.org" := roomJoined ]})) ∧
  Join (respOf {[ "!new:example.org" := roomJoined ]}) !! "!new:example.org"
    = Some roomJoined ∧
  (∃ e, e ∈ jTimeline roomJoined ∧ Type_ e = MemberEventType ∧
        StateKey e = Some (UserID syncer) ∧
        Content e !! "membership" = Some (i_string "join")) ∧
  ∃ res' c' er sent,
    ProcessResponse syncer (respOf {[ "!new:example.org" := roomJoined ]})
      "s72" (ordersOf ["!new:example.org"]) = (res', c', er) ∧
    Join res' !! "!new:example.org" = None ∧
    Invite res' !! "!new:example.org" = None ∧
    ProcessResponse syncer
      (deleteRoom "!new:example.org"
         (respOf {[ "!new:example.org" := roomJoined ]}))
      "s72" (ordersOf ["!new:example.org"]) = (res', c', er) ∧
    queue c' = queue (eventsChan syncer) ++ sent ∧
    ∀ e, Some e ∈ sent → RoomID e = "!new:example.org" →
      e ∈ AccountData (respOf {[ "!new:example.org" := roomJoined ]}) ∨
      e ∈ Presence (respOf {[ "!new:example.org" := roomJoined ]}) ∨
      ∃ lr, Leave (respOf {[ "!new:example.org" := roomJoined ]})
              !! "!new:example.org" = Some lr ∧
            e ∈ setRoomID "!new:example.org" <$> lTimeline lr.
Proof.
  assert (H1 : "s72" ≠ "") by done.
  assert (H2 : range_order (scanOrder (ordersOf ["!new:example.org"]))
                 (Join (respOf {[ "!new:example.org" := roomJoined ]}))).
  { apply range_order_check; [by apply (bool_decide_unpack _)|].
    vm_compute. reflexivity. }
  assert (H3 : Join (respOf {[ "!new:example.org" := roomJoined ]})
                 !! "!new:example.org" = Some roomJoined).
  { vm_compute. reflexivity. }
  assert (H4 : ∃ e, e ∈ jTimeline roomJoined ∧ Type_ e = MemberEventType ∧
                    StateKey e = Some (UserID syncer) ∧
                    Content e !! "membership" = Some (i_string "join")).
  { exists joinEv. split; [apply list_elem_of_here|].
    split; [reflexivity|]. split; [reflexivity|]. vm_compute. reflexivity. }
  split; [exact H1|]. split; [exact H2|]. split; [exact H3|].
  split; [exact H4|].
  exact (joined_room_with_own_join_dropped syncer
           (respOf {[ "!new:example.org" := roomJoined ]}) "s72"
           (ordersOf ["!new:example.org"]) "!new:example.org" roomJoined
           H1 H2 H3 H4).
Defined.

(** C3, as stated, fails.  In the room [roomLeftAfterJoin] the most
    recent membership event of the account says "leave" and the join is
    older, so that going from the most recent event to the oldest the
    join does not come before every other membership event of the
    account; the claim has this room sent normally.  The scan goes on
    past the "leave" event, finds the join and deletes the room: nothing
    is sent. *)
Lemma rejoined_room_is_dropped :
  spec_joinBeforeOthers bot (jTimeline roomLeftAfterJoin) = false ∧
  length (joinedBlock ("!tea:example.org", roomLeftAfterJoin)) = 4%nat ∧
  ProcessResponse syncer (respOf {[ "!tea:example.org" := roomLeftAfterJoin ]})
    "s72" (ordersOf ["!tea:example.org"])
  = (respOf ∅, openChan, None).
Proof. repeat split; vm_compute; reflexivity. Qed.

(** C3, amended.  For a non-empty since value, an open events channel
    and orders that the runtime may take: a joined room whose timeline
    holds a "join" membership event of the account, wherever it stands
    among the account's other membership events, is deleted from the
    joined and the invited category and the call gives what it gives
    without these entries; a joined room whose timeline holds no such
    event keeps its entries, and its state, timeline and ephemeral
    events are sent, in this order and under its identifier, as one
    block. *)
Theorem join_flood_dedup s res since o r rd :
  since ≠ "" →
  closed (eventsChan s) = false →
  range_order (scanOrder o) (Join res) →
  range_order (joinOrder o) (Join (scanRooms (UserID s) (scanOrder o) res)) →
  Join res !! r = Some rd →
  ∃ res' c',
    ProcessResponse s res since o = (res', c', None) ∧
    if hasOwnJoin (UserID s) (jTimeline rd)
    then Join res' !! r = None ∧ Invite res' !! r = None ∧
         ProcessResponse s (deleteRoom r res) since o = (res', c', None)
    else Join res' !! r = Some rd ∧ Invite res' !! r = Invite res !! r ∧
         ∃ before after,
           queue c' = queue (eventsChan s) ++
                      before ++ joinedBlock (r, rd) ++ after.
Proof.
  intros Hs Hc [_ Hscan] [_ Hjoin] Hr.
  assert (Hin : r ∈ scanOrder o) by (apply Hscan; by exists rd).
  set (res' := scanRooms (UserID s) (scanOrder o) res) in *.
  exists res', {| queue := queue (eventsChan s) ++ emitted res' o;
                  closed := false |}.
  split; [by apply ProcessResponse_open|].
  destruct (hasOwnJoin (UserID s) (jTimeline rd)) eqn:Hj.
  - split; [|split].
    + unfold res'. rewrite scanRooms_Join, Hr, Hj.
      by rewrite bool_decide_eq_true_2.
    + unfold res'. rewrite scanRooms_Invite, Hr, Hj.
      by rewrite bool_decide_eq_true_2.
    + rewrite ProcessResponse_open by done.
      by rewrite (scanRooms_deleteRoom _ _ _ _ rd).
  - assert (HJ : Join res' !! r = Some rd).
    { unfold res'. rewrite scanRooms_Join, Hr, Hj. by rewrite andb_false_r. }
    split; [done|]. split.
    { unfold res'. rewrite scanRooms_Invite, Hr, Hj. by rewrite andb_false_r. }
    assert (Hent : (r, rd) ∈ entries (joinOrder o) (Join res')).
    { apply elem_of_entries. split; [|done]. apply Hjoin. by exists rd. }
    apply list_elem_of_split in Hent as (l1 & l2 & Hent).
    exists ((Some <$> AccountData res') ++ (Some <$> Presence res') ++
            (l1 ≫= joinedBlock)),
           ((l2 ≫= joinedBlock) ++
            (entries (inviteOrder o) (Invite res') ≫= invitedBlock) ++
            (entries (leaveOrder o) (Leave res') ≫= leftBlock)).
    simpl. unfold emitted. rewrite Hent, bind_app, bind_cons.
    by rewrite <- !app_assoc.
Qed.

Lemma join_flood_dedup_witness :
  "s72" ≠ "" ∧
  closed (eventsChan syncer) = false ∧
  ∃ res' c',
    ProcessResponse syncer
      (respOf {[ "!tea:example.org" := roomLeftAfterJoin;
                 "!quiet:example.org" := roomQuiet ]})
      "s72" scanBothSendQuiet
    = (res', c', None) ∧
    if hasOwnJoin (UserID syncer) (jTimeline roomQuiet)
    then Join res' !! "!quiet:example.org" = None ∧
         Invite res' !! "!quiet:example.org" = None ∧
         ProcessResponse syncer
           (deleteRoom "!quiet:example.org"
              (respOf {[ "!tea:example.org" := roomLeftAfterJoin;
                         "!quiet:example.org" := roomQuiet ]}))
           "s72" scanBothSendQuiet
         = (res', c', None)
    else Join res' !! "!quiet:example.org" = Some roomQuiet ∧
         Invite res' !! "!quiet:example.org"
           = Invite (respOf {[ "!tea:example.org" := roomLeftAfterJoin;
                               "!quiet:example.org" := roomQuiet ]})
               !! "!quiet:example.org" ∧
         ∃ before after,
           queue c' = queue (eventsChan syncer) ++
                      before ++
                      joinedBlock ("!quiet:example.org", roomQuiet) ++ after.
Proof.
  assert (H1 : "s72" ≠ "") by done.
  assert (H2 : closed (eventsChan syncer) = false) by reflexivity.
  split; [exact H1|]. split; [exact H2|].
  apply (join_flood_dedup syncer
           (respOf {[ "!tea:example.org" := roomLeftAfterJoin;
                      "!quiet:example.org" := roomQuiet ]})
           "s72" scanBothSendQuiet
           "!quiet:example.org" roomQuiet H1 H2).
  - apply range_order_check; [by apply (bool_decide_unpack _)|].
    vm_compute. reflexivity.
  - apply range_order_check; [by apply (bool_decide_unpack _)|].
    vm_compute. reflexivity.
  - vm_compute. reflexivity.
Defined.

(** C4. For a non-empty since value and an open events channel,
    [ProcessResponse] sends, after what the channel already holds: the
    account-data events, then the presence events, then for each joined
    room left by the scan, one room after the other, its state events,
    its timeline events and its ephemeral events, then for each invited
    room its state events, then for each left room its timeline events;
    each room is taken once.  What is sent for an event of a room is
    that event with the room's identifier in [RoomID] and every other
    field as in the response; account-data and presence events are sent
    as they are.  The call returns a nil error. *)
Theorem ProcessResponse_emission_order s res since o :
  since ≠ "" →
  closed (eventsChan s) = false →
  range_order (joinOrder o) (Join (scanRooms (UserID s) (scanOrder o) res)) →
  range_order (inviteOrder o) (Invite (scanRooms (UserID s) (scanOrder o) res)) →
  range_order (leaveOrder o) (Leave res) →
  ∃ res' joined invited left,
    shouldProcessResponse s res since (scanOrder o) = (true, res') ∧
    joined ≡ₚ map_to_list (Join res') ∧
    invited ≡ₚ map_to_list (Invite res') ∧
    left ≡ₚ map_to_list (Leave res) ∧
    ProcessResponse s res since o =
      (res',
       {| queue := queue (eventsChan s) ++
                   (Some <$> AccountData res) ++ (Some <$> Presence res) ++
                   (joined ≫= λ p, stamped p.1 (jState p.2) ++
                                   stamped p.1 (jTimeline p.2) ++
                                   stamped p.1 (jEphemeral p.2)) ++
                   (invited ≫= λ p, stamped p.1 (iState p.2)) ++
                   (left ≫= λ p, stamped p.1 (lTimeline p.2));
          closed := false |},
       None) ∧
    (∀ roomID evs x, x ∈ stamped roomID evs →
       ∃ e e0, x = Some e ∧ e0 ∈ evs ∧ e = setRoomID roomID e0 ∧
               RoomID e = roomID) ∧
    ∀ roomID evs,
      stamped roomID evs =
        (λ e0, Some {| StateKey := StateKey e0; Sender := Sender e0;
                       Type_ := Type_ e0; Timestamp := Timestamp e0;
                       ID := ID e0; RoomID := roomID;
                       Content := Content e0 |}) <$> evs.
Proof.
  intros Hs Hc Hj Hi Hl.
  set (res' := scanRooms (UserID s) (scanOrder o) res) in *.
  destruct (scanRooms_frame (UserID s) (scanOrder o) res) as (_ & Ea & Ep & El).
  fold res' in Ea, Ep, El.
  exists res', (entries (joinOrder o) (Join res')),
         (entries (inviteOrder o) (Invite res')),
         (entries (leaveOrder o) (Leave res')).
  split.
  { unfold shouldProcessResponse. by rewrite bool_decide_eq_false_2. }
  split; [by apply entries_range_order|].
  split; [by apply entries_range_order|].
  split; [rewrite El; by apply entries_range_order|].
  split.
  - rewrite ProcessResponse_open by done. fold res'.
    unfold emitted. by rewrite Ea, Ep.
  - split; [|done].
    intros roomID evs x Hx. apply elem_of_stamped in Hx as (e0 & -> & He0).
    by exists (setRoomID roomID e0), e0.
Qed.

Lemma ProcessResponse_emission_order_witness :
  "s72" ≠ "" ∧
  closed (eventsChan syncer) = false ∧
  ∃ res' joined invited left,
    shouldProcessResponse syncer
      (respOf {[ "!tea:example.org" := roomLeftAfterJoin;
                 "!quiet:example.org" := roomQuiet ]})
      "s72" (scanOrder scanBothSendQuiet) = (true, res') ∧
    joined ≡ₚ map_to_list (Join res') ∧
    invited ≡ₚ map_to_list (Invite res') ∧
    left ≡ₚ map_to_list
              (Leave (respOf {[ "!tea:example.org" := roomLeftAfterJoin;
                                "!quiet:example.org" := roomQuiet ]})) ∧
    ProcessResponse syncer
      (respOf {[ "!tea:example.org" := roomLeftAfterJoin;
                 "!quiet:example.org" := roomQuiet ]})
      "s72" scanBothSendQuiet =
      (res',
       {| queue := queue (eventsChan syncer) ++
                   (Some <$> AccountData
                      (respOf {[ "!tea:example.org" := roomLeftAfterJoin;
                                 "!quiet:example.org" := roomQuiet ]})) ++
                   (Some <$> Presence
                      (respOf {[ "!tea:example.org" := roomLeftAfterJoin;
                                 "!quiet:example.org" := roomQuiet ]})) ++
                   (joined ≫= λ p, stamped p.1 (jState p.2) ++
                                   stamped p.1 (jTimeline p.2) ++
                                   stamped p.1 (jEphemeral p.2)) ++
                   (invited ≫= λ p, stamped p.1 (iState p.2)) ++
                   (left ≫= λ p, stamped p.1 (lTimeline p.2));
          closed := false |},
       None) ∧
    (∀ roomID evs x, x ∈ stamped roomID evs →
       ∃ e e0, x = Some e ∧ e0 ∈ evs ∧ e = setRoomID roomID e0 ∧
               RoomID e = roomID) ∧
    ∀ roomID evs,
      stamped roomID evs =
        (λ e0, Some {| StateKey := StateKey e0; Sender := Sender e0;
                       Type_ := Type_ e0; Timestamp := Timestamp e0;
                       ID := ID e0; RoomID := roomID;
                       Content := Content e0 |}) <$> evs.
Proof.
  assert (H1 : "s72" ≠ "") by done.
  assert (H2 : closed (eventsChan syncer) = false) by reflexivity.
  split; [exact H1|]. split; [exact H2|].
  apply (ProcessResponse_emission_order syncer
           (respOf {[ "!tea:example.org" := roomLeftAfterJoin;
                      "!quiet:example.org" := roomQuiet ]})
           "s72" scanBothSendQuiet H1 H2).
  - apply range_order_check; [by apply (bool_decide_unpack _)|].
    vm_compute. reflexivity.
  - apply range_order_check; [by apply (bool_decide_unpack _)|].
    vm_compute. reflexivity.
  - apply range_order_check; [by apply (bool_decide_unpack _)|].
    vm_compute. reflexivity.
Defined.

(** C8. The default failure policy answers every failed sync, whatever
    the response (or nil) and the error, with a wait of ten seconds and
    a nil error; along any sequence of failures every answer is this
    one, so none of them stops the sync for good. *)
Theorem OnFailedSync_fixed_backoff s :
  (∀ res er, OnFailedSync s res er = (10 * Second, None)) ∧
  (∀ res er, (OnFailedSync s res er).1 = 10000000000) ∧
  ∀ failures : list (option RespSync * error),
    Forall (λ p, (OnFailedSync s p.1 p.2).2 = None ∧
                 (OnFailedSync s p.1 p.2).1 = 10 * Second) failures.
Proof.
  split; [done|]. split; [done|].
  intros failures. by apply Forall_forall.
Qed.

(** C10. For a non-empty since value [shouldProcessResponse] answers
    true, for every order of the scan.  The next-batch token, the
    account data, the presence list and the left rooms are as before;
    every joined and every invited entry that remains is the entry that
    was there; an invited entry goes only together with the joined entry
    of the same room; a joined entry goes only if its timeline holds a
    membership event of the account whose "membership" is the string
    "join".  So a room none of whose events has a string as "membership"
    stays, with its invited entry. *)
Theorem shouldProcessResponse_frame s resp since order :
  since ≠ "" →
  ∃ resp',
    shouldProcessResponse s resp since order = (true, resp') ∧
    NextBatch resp' = NextBatch resp ∧
    AccountData resp' = AccountData resp ∧
    Presence resp' = Presence resp ∧
    Leave resp' = Leave resp ∧
    Join resp' ⊆ Join resp ∧
    Invite resp' ⊆ Invite resp ∧
    (∀ r, is_Some (Invite resp !! r) → Invite resp' !! r = None →
       is_Some (Join resp !! r) ∧ Join resp' !! r = None) ∧
    (∀ r rd, Join resp !! r = Some rd → Join resp' !! r = None →
       ∃ e, e ∈ jTimeline rd ∧ Type_ e = MemberEventType ∧
            StateKey e = Some (UserID s) ∧
            Content e !! "membership" = Some (i_string "join")) ∧
    (∀ r rd, Join resp !! r = Some rd →
       (∀ e m, e ∈ jTimeline rd → Content e !! "membership" ≠ Some (i_string m)) →
       Join resp' !! r = Some rd ∧ Invite resp' !! r = Invite resp !! r).
Proof.
  intros Hs. exists (scanRooms (UserID s) order resp).
  split. { unfold shouldProcessResponse. by rewrite bool_decide_eq_false_2. }
  destruct (scanRooms_frame (UserID s) order resp) as (En & Ea & Ep & El).
  do 4 (split; [done|]).
  assert (Hgone : ∀ r rd, Join resp !! r = Some rd →
            Join (scanRooms (UserID s) order resp) !! r = None →
            hasOwnJoin (UserID s) (jTimeline rd) = true).
  { intros r rd Hr. rewrite scanRooms_Join, Hr.
    destruct (hasOwnJoin _ _); [done|]. by rewrite andb_false_r. }
  split; [|split; [|split; [|split]]].
  - apply map_subseteq_spec. intros k rd. rewrite scanRooms_Join.
    destruct (Join resp !! k) as [rd'|]; [|done].
    by destruct (_ && _).
  - apply map_subseteq_spec. intros k x. rewrite scanRooms_Invite.
    destruct (Join resp !! k) as [rd'|]; [|done].
    by destruct (_ && _).
  - intros r [x Hx]. rewrite scanRooms_Invite, scanRooms_Join.
    destruct (Join resp !! r) as [rd|]; [|by rewrite Hx].
    destruct (_ && _); [done|by rewrite Hx].
  - intros r rd Hr Hnone. apply hasOwnJoin_spec. by apply (Hgone r).
  - intros r rd Hr Hno.
    assert (Hj : hasOwnJoin (UserID s) (jTimeline rd) = false).
    { apply not_true_is_false. intros Hj.
      apply hasOwnJoin_spec in Hj as (e & He & _ & _ & Hm).
      by apply (Hno e "join"). }
    rewrite scanRooms_Join, scanRooms_Invite, Hr, Hj.
    by rewrite andb_false_r.
Qed.

Lemma shouldProcessResponse_frame_witness :
  "s72" ≠ "" ∧
  ∃ resp',
    shouldProcessResponse syncer (respOf {[ "!odd:example.org" := roomOdd ]})
      "s72" ["!odd:example.org"] = (true, resp') ∧
    NextBatch resp' = NextBatch (respOf {[ "!odd:example.org" := roomOdd ]}) ∧
    AccountData resp' = AccountData (respOf {[ "!odd:example.org" := roomOdd ]}) ∧
    Presence resp' = Presence (respOf {[ "!odd:example.org" := roomOdd ]}) ∧
    Leave resp' = Leave (respOf {[ "!odd:example.org" := roomOdd ]}) ∧
    Join resp' ⊆ Join (respOf {[ "!odd:example.org" := roomOdd ]}) ∧
    Invite resp' ⊆ Invite (respOf {[ "!odd:example.org" := roomOdd ]}) ∧
    (∀ r, is_Some (Invite (respOf {[ "!odd:example.org" := roomOdd ]}) !! r) →
       Invite resp' !! r = None →
       is_Some (Join (respOf {[ "!odd:example.org" := roomOdd ]}) !! r) ∧
       Join resp' !! r = None) ∧
    (∀ r rd, Join (respOf {[ "!odd:example.org" := roomOdd ]}) !! r = Some rd →
       Join resp' !! r = None →
       ∃ e, e ∈ jTimeline rd ∧ Type_ e = MemberEventType ∧
            StateKey e = Some (UserID syncer) ∧
            Content e !! "membership" = Some (i_string "join")) ∧
    (∀ r rd, Join (respOf {[ "!odd:example.org" := roomOdd ]}) !! r = Some rd →
       (∀ e m, e ∈ jTimeline rd → Content e !! "membership" ≠ Some (i_string m)) →
       Join resp' !! r = Some rd ∧
       Invite resp' !! r
         = Invite (respOf {[ "!odd:example.org" := roomOdd ]}) !! r).
Proof.
  assert (H1 : "s72" ≠ "") by done.
  split; [exact H1|].
  exact (shouldProcessResponse_frame syncer
           (respOf {[ "!odd:example.org" := roomOdd ]}) "s72"
           ["!odd:example.org"] H1).
Defined.

(** The scan keeps the room with the odd membership value. *)
Example odd_membership_kept :
  shouldProcessResponse syncer (respOf {[ "!odd:example.org" := roomOdd ]})
    "s72" ["!odd:example.org"]
  = (true, respOf {[ "!odd:example.org" := roomOdd ]}).
Proof. vm_compute. reflexivity. Qed.

(** ** The lock *)

Lemma RLock_RUnlock m :
  writer m = false →
  match RLock m with
  | Returns m1 => RUnlock m1
  | Blocks => Blocks
  | Fatal msg => Fatal msg
  end = Returns m.
Proof. destruct m as [n w]. simpl. intros ->. reflexivity. Qed.

Lemma RLock_Unlock m :
  match RLock m with
  | Returns m1 => Unlock m1
  | Blocks => Blocks
  | Fatal msg => Fatal msg
  end = if writer m then Blocks
        else Fatal "sync: Unlock of unlocked RWMutex".
Proof. destruct m as [n [|]]; reflexivity. Qed.

Lemma Lock_Unlock :
  match Lock unlocked with
  | Returns m1 => Unlock m1
  | Blocks => Blocks
  | Fatal msg => Fatal msg
  end = Returns unlocked.
Proof. reflexivity. Qed.

(** A dispatch of a non-nil event never gets past line 94. *)
Lemma call_faults l e :
  call l (Some e) =
    if writer (listenersRWMut l) then Blocks
    else Fatal "sync: Unlock of unlocked RWMutex".
Proof.
  unfold call. destruct (listenersRWMut l) as [n [|]]; reflexivity.
Qed.

Lemma On_unlocked l eType callback :
  listenersRWMut l = unlocked →
  On l eType callback =
    Returns (setListeners
               (<[eType := match listeners l !! eType with
                           | Some cl => cl
                           | None => [None]
                           end ++ [callback]]> (listeners l)) l).
Proof.
  intros Hm. unfold On. rewrite Hm. simpl.
  destruct l as [ls m ev er]. simpl in *. by subst.
Qed.

(** ** The registry that [On] builds *)

Lemma storedFor_snoc eType regs t fn :
  storedFor eType (regs ++ [(t, fn)]) =
    if decide (t = eType)
    then Some (match storedFor eType regs with
               | Some cl => cl
               | None => [None]
               end ++ [Some fn])
    else storedFor eType regs.
Proof.
  unfold storedFor. rewrite filter_app, filter_cons, filter_nil. simpl.
  destruct (decide (t = eType)) as [->|Hne].
  - destruct (filter _ regs) as [|p ps]; [done|].
    simpl. f_equal. f_equal. by rewrite fmap_app.
  - by rewrite app_nil_r.
Qed.

Lemma registerAll_stored regs : ∀ l regs0,
  listenersRWMut l = unlocked →
  (∀ t, listeners l !! t = storedFor t regs0) →
  ∃ l', registerAll l regs = Returns l' ∧
        listenersRWMut l' = unlocked ∧
        events l' = events l ∧ err l' = err l ∧
        ∀ t, listeners l' !! t = storedFor t (regs0 ++ regs).
Proof.
  induction regs as [|[t fn] regs IH]; intros l regs0 Hm Hl.
  - exists l. rewrite app_nil_r. by simpl.
  - cbn [registerAll]. rewrite On_unlocked by done.
    edestruct (IH (setListeners
                     (<[t := match listeners l !! t with
                             | Some cl => cl
                             | None => [None]
                             end ++ [Some fn]]> (listeners l)) l)
                  (regs0 ++ [(t, fn)])) as (l' & Hreg & Hm' & Hev & Her & Hl').
    + done.
    + intros t'. simpl. rewrite storedFor_snoc.
      destruct (decide (t = t')) as [->|Hne].
      * by rewrite lookup_insert_eq, Hl.
      * by rewrite lookup_insert_ne.
    + exists l'. rewrite <- app_assoc in Hl'. by simpl in *.
Qed.

Lemma storedFor_registeredFor eType regs fn :
  fn ∈ registeredFor eType regs →
  storedFor eType regs = Some (None :: (Some <$> registeredFor eType regs)).
Proof.
  unfold registeredFor, storedFor. intros Hin.
  destruct (filter _ regs) as [|p ps]; [by apply elem_of_nil in Hin|].
  by rewrite list_fmap_compose.
Qed.

(** ** The loop of [call] on lists without a nil callback *)

Lemma callAll_returning fns e :
  Forall (λ fn, fn_body fn e = None) fns →
  callAll (Some <$> fns) e = (None, fn_name <$> fns).
Proof.
  induction 1 as [|fn fns Hfn _ IH]; [done|].
  rewrite !fmap_cons. cbn [callAll]. by rewrite Hfn, IH.
Qed.

Lemma callAll_panicking fns fn r rest e :
  Forall (λ f, fn_body f e = None) fns →
  fn_body fn e = Some r →
  callAll ((Some <$> fns) ++ Some fn :: rest) e =
    (Some (ErrCallPanicked r), (fn_name <$> fns) ++ [fn_name fn]).
Proof.
  intros Hfns Hr. induction Hfns as [|f fs Hf _ IH].
  - simpl. by rewrite Hr.
  - rewrite !fmap_cons. cbn [callAll app]. by rewrite Hf, IH.
Qed.

(** Had the list no nil callback at its head, the loop would enter the
    callbacks in order up to the first that panics. *)
Example callAll_sample :
  callAll [Some printFn; Some boomFn; Some printFn] msgEv
  = (Some (ErrCallPanicked "boom"), ["print"; "boom"]).
Proof. reflexivity. Qed.

(** ** The listener: the claims *)

(** C5 against the code.  After any sequence of registrations on a new
    listener, take an event for whose type some callback was registered.
    The list kept for that type is a nil callback followed by the
    registered callbacks in registration order.  A dispatch aborts the
    process at the [Unlock] of line 94, since the lock is held for
    reading; and the loop of lines 105-107 run on that list panics on
    the nil callback at its head and enters none of the registered
    callbacks.  The claim has each of them invoked once, in order, and
    no nil callback invoked. *)
Theorem registered_callbacks_never_entered ch regs :
  ∃ l,
    registerAll (NewDefaultListener ch) regs = Returns l ∧
    ∀ e fn, fn ∈ registeredFor (Type_ e) regs →
      listeners l !! Type_ e
        = Some (None :: (Some <$> registeredFor (Type_ e) regs)) ∧
      call l (Some e) = Fatal "sync: Unlock of unlocked RWMutex" ∧
      callAll (None :: (Some <$> registeredFor (Type_ e) regs)) e
        = (Some (ErrCallPanicked
                   "runtime error: invalid memory address or nil pointer dereference"),
           []).
Proof.
  destruct (registerAll_stored regs (NewDefaultListener ch) [])
    as (l & Hreg & Hm & _ & _ & Hl); [done|done|].
  exists l. split; [done|]. intros e fn Hfn.
  split; [|split].
  - rewrite Hl. simpl. by apply (storedFor_registeredFor _ _ fn).
  - rewrite call_faults, Hm. reflexivity.
  - reflexivity.
Qed.

(** C6 against the code.  On a new listener register the panicking
    callback [boomFn] and the callback [printFn] for message events and
    dispatch a message: the process is aborted at line 94 by a fatal
    error of the runtime, which the deferred [recover] does not see, so
    no error is returned.  Of the loop alone: on the list that [On]
    built it reports a panic, that of the nil callback at the head, and
    on every later dispatch again, also after a further registration;
    no dispatch succeeds. *)
Theorem dispatch_after_panic_never_succeeds :
  ∃ l1 l2 l3,
    On (NewDefaultListener openChan) MessageEventType (Some boomFn) = Returns l1 ∧
    On l1 MessageEventType (Some printFn) = Returns l2 ∧
    call l2 (Some msgEv) = Fatal "sync: Unlock of unlocked RWMutex" ∧
    listeners l2 !! MessageEventType = Some [None; Some boomFn; Some printFn] ∧
    callAll [None; Some boomFn; Some printFn] msgEv
      = (Some (ErrCallPanicked
                 "runtime error: invalid memory address or nil pointer dereference"),
         []) ∧
    On l2 "m.room.topic" (Some printFn) = Returns l3 ∧
    call l3 (Some topicEv) = Fatal "sync: Unlock of unlocked RWMutex" ∧
    listeners l3 !! "m.room.topic" = Some [None; Some printFn] ∧
    callAll [None; Some printFn] topicEv
      = (Some (ErrCallPanicked
                 "runtime error: invalid memory address or nil pointer dereference"),
         []).
Proof.
  eexists _, _, _.
  split; [vm_compute; reflexivity|].
  split; [vm_compute; reflexivity|].
  split; [reflexivity|].
  split; [vm_compute; reflexivity|].
  split; [reflexivity|].
  split; [vm_compute; reflexivity|].
  split; [reflexivity|].
  split; [vm_compute; reflexivity|].
  reflexivity.
Qed.

(** C9 against the code.  Registration takes the write lock and gives
    it back: [On] on an unlocked listener returns with the lock
    unlocked.  Dispatch takes the read lock and then calls [Unlock], the
    release of the write lock: on every listener and every non-nil
    event [call] does not return; it waits if a writer holds the lock
    and else aborts the process with the runtime's fatal error.  Already
    the run of one registration followed by one dispatch faults the
    lock. *)
Theorem dispatch_unlocks_the_write_lock :
  (∀ l e, call l (Some e) =
            if writer (listenersRWMut l) then Blocks
            else Fatal "sync: Unlock of unlocked RWMutex") ∧
  (∀ l e r, call l (Some e) ≠ Returns r) ∧
  (∀ ch eType callback e, ∃ l,
     On (NewDefaultListener ch) eType callback = Returns l ∧
     listenersRWMut l = unlocked ∧
     call l (Some e) = Fatal "sync: Unlock of unlocked RWMutex").
Proof.
  split; [exact call_faults|]. split.
  - intros l e r. rewrite call_faults. by destruct (writer _).
  - intros ch eType callback e. rewrite On_unlocked by done.
    eexists. split; [done|]. split; [done|].
    by rewrite call_faults.
Qed.

(** ** The loop of [scanEvents] *)

Lemma pick_elem ready n c : pick ready n = Some c → c ∈ ready.
Proof. unfold pick. apply list_elem_of_lookup_2. Qed.

Lemma pick_nonempty ready n : ready ≠ [] → is_Some (pick ready n).
Proof.
  intros Hne. unfold pick. apply lookup_lt_is_Some_2.
  apply Nat.mod_upper_bound. by destruct ready.
Qed.

(** A case that can proceed has its cause. *)
Lemma ready_inv sig c x :
  x ∈ readyCases sig c →
  match x with
  | CaseEvents => eventsReady c = true
  | CaseStop => stopping sig = true
  | CaseDone => cancelled sig = true
  end.
Proof.
  unfold readyCases.
  destruct (eventsReady c), (stopping sig), (cancelled sig); simpl;
    rewrite ?elem_of_cons, ?elem_of_nil; destruct x; intuition discriminate.
Qed.

Lemma ready_nonempty sig c :
  cancelled sig = true ∨ stopping sig = true ∨ closed c = true →
  readyCases sig c ≠ [].
Proof.
  unfold readyCases, eventsReady. intros [H|[H|H]]; rewrite H.
  - by destruct (match queue c with [] => _ | _ => _ end), (stopping sig).
  - by destruct (match queue c with [] => _ | _ => _ end).
  - by destruct (queue c).
Qed.

(** What [call] leaves alone, read off its lines without regard to the
    lock. *)
Lemma call_frame l e l1 er log1 :
  call l e = Returns (l1, er, log1) →
  events l1 = events l ∧ listeners l1 = listeners l ∧
  (e = None → er = None ∧ log1 = [] ∧ l1 = l).
Proof.
  unfold call. destruct e as [ev|].
  - destruct (RLock (listenersRWMut l)) as [m1| |]; try done.
    destruct (Unlock m1) as [m2| |]; try done.
    destruct (listeners l !! Type_ ev) as [cl|].
    + destruct (callAll cl ev) as [er' log']. by intros [= <- <- <-].
    + by intros [= <- <- <-].
  - by intros [= <- <- <-].
Qed.

Lemma nil_queue_no_event (q : list (option Event)) e :
  Forall (λ p, p = None) q → Some e ∈ q → False.
Proof.
  intros Hall Hin. rewrite Forall_forall in Hall. by apply Hall in Hin.
Qed.

(** Once a signal is there or the channel is closed, a run is over
    after one [select] more than there are queued events. *)
Lemma scanEvents_over ctx sig choices : ∀ l log,
  cancelled sig = true ∨ stopping sig = true ∨ closed (events l) = true →
  (length (queue (events l)) < length choices)%nat →
  match scanEvents ctx sig l choices log with
  | Returns (Exited l' er log') =>
      (er = Some (ErrContext (ctxErr ctx)) ∧ cancelled sig = true) ∨
      (er = err l' ∧ stopping sig = true) ∨
      (er = err l' ∧ closed (events l) = true ∧ queue (events l') = []) ∨
      (er = err l' ∧ er ≠ None ∧ ∃ e, Some e ∈ queue (events l))
  | Returns (Selecting _ _) => False
  | Blocks | Fatal _ => ∃ e, Some e ∈ queue (events l)
  end.
Proof.
  induction choices as [|n rest IH]; intros l log Hsig Hlen.
  { simpl in Hlen. lia. }
  cbn [scanEvents].
  destruct (pick_nonempty (readyCases sig (events l)) n) as [x Hx];
    [by apply ready_nonempty|].
  rewrite Hx. apply pick_elem, ready_inv in Hx.
  destruct x.
  - destruct (queue (events l)) as [|e q] eqn:Hq.
    + unfold eventsReady in Hx. rewrite Hq in Hx. rewrite Hx.
      right; right; left. done.
    + destruct (call _ e) as [[[l1 er] log1]| |msg] eqn:Hcall.
      * apply call_frame in Hcall as (Hev & _ & Hnil). simpl in Hev.
        destruct er as [er|].
        -- right; right; right. split; [done|]. split; [done|].
           destruct e as [ev|]; [|by destruct Hnil].
           exists ev. apply list_elem_of_here.
        -- specialize (IH (setErr None l1) (log ++ log1)).
           simpl in IH. rewrite Hev in IH. simpl in IH.
           specialize (IH Hsig). simpl in Hlen.
           specialize (IH ltac:(lia)).
           destruct (scanEvents ctx sig (setErr None l1) rest (log ++ log1))
             as [[l' er' log'|l' log']| |msg]; try done.
           ++ destruct IH as [H|[H|[H|(? & ? & ev & Hin)]]];
                [by left|by (right; left)|by (right; right; left)|].
              right; right; right. split; [done|]. split; [done|].
              exists ev. by apply list_elem_of_further.
           ++ destruct IH as [ev Hin]. exists ev. by apply list_elem_of_further.
           ++ destruct IH as [ev Hin]. exists ev. by apply list_elem_of_further.
      * destruct e as [ev|]; [|done]. exists ev. apply list_elem_of_here.
      * destruct e as [ev|]; [|done]. exists ev. apply list_elem_of_here.
  - right; left. done.
  - left. done.
Qed.

(** On a queue of nil pointers a run never enters [call] past its
    first line: it returns or waits, with the log as it was. *)
Lemma scanEvents_nil_returns ctx sig choices : ∀ l log,
  Forall (λ p, p = None) (queue (events l)) →
  ∃ r,
    scanEvents ctx sig l choices log = Returns r ∧
    scan_log r = log ∧
    (err (scan_listener r) = err l ∨ err (scan_listener r) = None).
Proof.
  induction choices as [|n rest IH]; intros l log Hnil.
  { exists (Selecting l log). by repeat split; [..|left]. }
  cbn [scanEvents].
  destruct (pick (readyCases sig (events l)) n) as [[| |]|].
  - destruct (queue (events l)) as [|e q] eqn:Hq.
    + destruct (closed (events l)).
      * exists (Exited l (err l) log). by repeat split; [..|left].
      * exists (Selecting l log). by repeat split; [..|left].
    + apply Forall_cons_1 in Hnil as [-> Hnil]. simpl.
      rewrite app_nil_r.
      destruct (IH (setErr None
                      (setEvents {| queue := q; closed := closed (events l) |} l))
                   log Hnil) as (r & Hr & Hlog & He).
      exists r. split; [done|]. split; [done|]. right.
      simpl in He. by destruct He.
  - exists (Exited l (err l) log). by repeat split; [..|left].
  - exists (Exited l (Some (ErrContext (ctxErr ctx))) log).
    by repeat split; [..|left].
  - exists (Selecting l log). by repeat split; [..|left].
Qed.

(** C7, as stated, fails in two ways.  A message is queued on the
    events channel of a new listener.  With the stop signal offered,
    the runtime may take the stop case: [scanEvents] returns at once
    and the message is still on the channel, undelivered; there is no
    drain.  With the context cancelled, the runtime may take the
    context case, and the message stays queued just the same; or it may
    take the queued message first, and then the run does not return the
    context's error: it ends in the dispatch of the message, with the
    fatal error of line 94. *)
Lemma stop_leaves_queued_events :
  let l := NewDefaultListener {| queue := [Some msgEv]; closed := false |} in
  readyCases onlyStopping (events l) = [CaseEvents; CaseStop] ∧
  scanEvents background onlyStopping l [1%nat] [] = Returns (Exited l None []) ∧
  queue (events l) = [Some msgEv] ∧
  readyCases onlyCancelled (events l) = [CaseEvents; CaseDone] ∧
  scanEvents background onlyCancelled l [1%nat] []
    = Returns (Exited l (Some (ErrContext Canceled)) []) ∧
  scanEvents background onlyCancelled l [0%nat] []
    = Fatal "sync: Unlock of unlocked RWMutex".
Proof. repeat split. Qed.

(** C7, amended.  Let the context be cancelled, or the stop signal be
    offered, or the events channel be closed, and let the runtime make
    one choice more than there are events queued; each choice is among
    the cases that can proceed.  Then the run of [scanEvents] is over:
    it does not wait any more.  If it returned, then either with the
    context's error, the context being cancelled, which is no listener
    fault; or with the recorded listener error, the stop signal being
    there; or with the recorded error, the channel being closed and
    drained; or with the error of a dispatch that failed.  If it did
    not return, it ended inside the dispatch of a queued non-nil event.
    When no non-nil event is queued it returns, entering no callback;
    the recorded error is the one from before or nil; it returns the
    context's error when cancellation alone can make it return, and the
    recorded error when the context is not cancelled, the channel being
    drained when closure alone can make it return. *)
Theorem scanEvents_exits ctx sig l choices log :
  cancelled sig = true ∨ stopping sig = true ∨ closed (events l) = true →
  (length (queue (events l)) < length choices)%nat →
  match scanEvents ctx sig l choices log with
  | Returns (Exited l' er log') =>
      (er = Some (ErrContext (ctxErr ctx)) ∧ cancelled sig = true) ∨
      (er = err l' ∧ stopping sig = true) ∨
      (er = err l' ∧ closed (events l) = true ∧ queue (events l') = []) ∨
      (er = err l' ∧ er ≠ None ∧ ∃ e, Some e ∈ queue (events l))
  | Returns (Selecting _ _) => False
  | Blocks | Fatal _ => ∃ e, Some e ∈ queue (events l)
  end ∧
  (∀ r, Some (ErrContext (ctxErr ctx)) ≠ Some (ErrCallPanicked r)) ∧
  (Forall (λ p, p = None) (queue (events l)) →
   ∃ l' er,
     scanEvents ctx sig l choices log = Returns (Exited l' er log) ∧
     (err l' = err l ∨ err l' = None) ∧
     (stopping sig = false → closed (events l) = false →
      er = Some (ErrContext (ctxErr ctx))) ∧
     (cancelled sig = false → er = err l') ∧
     (cancelled sig = false → stopping sig = false →
      queue (events l') = [])).
Proof.
  intros Hsig Hlen.
  pose proof (scanEvents_over ctx sig choices l log Hsig Hlen) as Hover.
  split; [exact Hover|]. split; [done|].
  intros Hnil.
  destruct (scanEvents_nil_returns ctx sig choices l log Hnil)
    as (r & Hr & Hlog & He).
  rewrite Hr in Hover. destruct r as [l' er log'|l' log']; [|done].
  simpl in Hlog, He. subst log'. exists l', er. split; [done|].
  split; [done|].
  destruct Hover as [[-> Hc]|[[-> Hs]|[(-> & Hc & Hq)|(_ & _ & ev & Hin)]]];
    try by (exfalso; apply (nil_queue_no_event _ ev Hnil Hin)).
  - split; [done|]. split; intros; congruence.
  - split; [intros; congruence|]. split; [done|]. intros; congruence.
  - split; [intros; congruence|]. done.
Qed.

Lemma scanEvents_exits_witness :
  let l := faultedListener {| queue := [None]; closed := false |} in
  (cancelled onlyCancelled = true ∨ stopping onlyCancelled = true ∨
   closed (events l) = true) ∧
  (length (queue (events l)) < length [0%nat; 0%nat])%nat ∧
  match scanEvents background onlyCancelled l [0%nat; 0%nat] [] with
  | Returns (Exited l' er log') =>
      (er = Some (ErrContext (ctxErr background)) ∧
       cancelled onlyCancelled = true) ∨
      (er = err l' ∧ stopping onlyCancelled = true) ∨
      (er = err l' ∧ closed (events l) = true ∧ queue (events l') = []) ∨
      (er = err l' ∧ er ≠ None ∧ ∃ e, Some e ∈ queue (events l))
  | Returns (Selecting _ _) => False
  | Blocks | Fatal _ => ∃ e, Some e ∈ queue (events l)
  end ∧
  (∀ r, Some (ErrContext (ctxErr background)) ≠ Some (ErrCallPanicked r)) ∧
  (Forall (λ p, p = None) (queue (events l)) →
   ∃ l' er,
     scanEvents background onlyCancelled l [0%nat; 0%nat] []
       = Returns (Exited l' er []) ∧
     (err l' = err l ∨ err l' = None) ∧
     (stopping onlyCancelled = false → closed (events l) = false →
      er = Some (ErrContext (ctxErr background))) ∧
     (cancelled onlyCancelled = false → er = err l') ∧
     (cancelled onlyCancelled = false → stopping onlyCancelled = false →
      queue (events l') = [])).
Proof.
  intros l.
  assert (H1 : cancelled onlyCancelled = true ∨ stopping onlyCancelled = true ∨
               closed (events l) = true) by (left; reflexivity).
  assert (H2 : (length (queue (events l)) < length [0%nat; 0%nat])%nat)
    by (simpl; lia).
  split; [exact H1|]. split; [exact H2|].
  exact (scanEvents_exits background onlyCancelled l [0%nat; 0%nat] [] H1 H2).
Defined.

(** The run of the witness: the nil pointer is taken, then the context
    case; the fault recorded before the run is gone. *)
Example scanEvents_cancelled_sample :
  scanEvents background onlyCancelled
    (faultedListener {| queue := [None]; closed := false |}) [0%nat; 0%nat] []
  = Returns (Exited (NewDefaultListener {| queue := []; closed := false |})
               (Some (ErrContext Canceled)) []).
Proof. reflexivity. Qed.

(** * Further properties of the code *)

(** ** The scan as a function of the response *)

Lemma range_order_elem {V} order (m : gmap string V) k v :
  range_order order m → m !! k = Some v → k ∈ order.
Proof. intros [_ H] Hk. apply H. by exists v. Qed.

Lemma scanRooms_Join_covered u order resp k :
  (∀ rd, Join resp !! k = Some rd → k ∈ order) →
  Join (scanRooms u order resp) !! k =
    if dropped u resp k then None else Join resp !! k.
Proof.
  intros Hin. rewrite scanRooms_Join. unfold dropped.
  destruct (Join resp !! k) as [rd|]; [|done].
  rewrite bool_decide_eq_true_2 by by apply (Hin rd). done.
Qed.

Lemma scanRooms_Invite_covered u order resp k :
  (∀ rd, Join resp !! k = Some rd → k ∈ order) →
  Invite (scanRooms u order resp) !! k =
    if dropped u resp k then None else Invite resp !! k.
Proof.
  intros Hin. rewrite scanRooms_Invite. unfold dropped.
  destruct (Join resp !! k) as [rd|]; [|done].
  rewrite bool_decide_eq_true_2 by by apply (Hin rd). done.
Qed.

Lemma filter_not_dropped {V} u resp (m : gmap string V) k :
  filter (λ kv, dropped u resp kv.1 = false) m !! k =
    if dropped u resp k then None else m !! k.
Proof.
  apply option_eq. intros v. rewrite map_lookup_filter_Some. simpl.
  destruct (dropped u resp k).
  - split; [by intros [_ ?]|done].
  - split; [by intros [? _]|by intros ?].
Qed.

(** For an order that covers the joined rooms, the response after the
    scan, field by field. *)
Lemma scanRooms_range_order u order resp :
  range_order order (Join resp) →
  scanRooms u order resp =
    {| NextBatch := NextBatch resp;
       AccountData := AccountData resp;
       Presence := Presence resp;
       Join := filter (λ kv, dropped u resp kv.1 = false) (Join resp);
       Invite := filter (λ kv, dropped u resp kv.1 = false) (Invite resp);
       Leave := Leave resp |}.
Proof.
  intros Hord.
  destruct (scanRooms_frame u order resp) as (En & Ea & Ep & El).
  apply RespSync_eq; simpl; try done.
  - apply map_eq. intros k. rewrite filter_not_dropped.
    apply scanRooms_Join_covered. intros rd. by apply range_order_elem.
  - apply map_eq. intros k. rewrite filter_not_dropped.
    apply scanRooms_Invite_covered. intros rd. by apply range_order_elem.
Qed.

(** X1. For a non-empty since value and an order that covers the joined
    rooms, the scan of [shouldProcessResponse] is a filter: the joined
    rooms that remain are those whose timeline holds no "join"
    membership event of the account, the invited rooms that remain are
    those whose joined entry, if there is one, holds none, and the rest
    of the response is as it was. *)
Theorem shouldProcessResponse_is_filter s resp since order :
  since ≠ "" →
  range_order order (Join resp) →
  shouldProcessResponse s resp since order =
    (true,
     {| NextBatch := NextBatch resp;
        AccountData := AccountData resp;
        Presence := Presence resp;
        Join := filter (λ kv, hasOwnJoin (UserID s) (jTimeline kv.2) = false)
                  (Join resp);
        Invite := filter (λ kv, dropped (UserID s) resp kv.1 = false)
                    (Invite resp);
        Leave := Leave resp |}).
Proof.
  intros Hs Hord. unfold shouldProcessResponse.
  rewrite bool_decide_eq_false_2 by done.
  rewrite scanRooms_range_order by done. f_equal.
  apply RespSync_eq; simpl; try done.
  apply map_filter_ext. intros k rd Hk. simpl. unfold dropped. by rewrite Hk.
Qed.

Lemma shouldProcessResponse_is_filter_witness :
  "s72" ≠ "" ∧
  range_order ["!quiet:example.org"; "!tea:example.org"]
    (Join (respOf {[ "!tea:example.org" := roomLeftAfterJoin;
                     "!quiet:example.org" := roomQuiet ]})) ∧
  shouldProcessResponse syncer
    (respOf {[ "!tea:example.org" := roomLeftAfterJoin;
               "!quiet:example.org" := roomQuiet ]})
    "s72" ["!quiet:example.org"; "!tea:example.org"] =
    (true,
     {| NextBatch := "s73"; AccountData := []; Presence := [];
        Join := filter (λ kv, hasOwnJoin (UserID syncer) (jTimeline kv.2) = false)
                  {[ "!tea:example.org" := roomLeftAfterJoin;
                     "!quiet:example.org" := roomQuiet ]};
        Invite := filter (λ kv, dropped (UserID syncer)
                                  (respOf {[ "!tea:example.org" := roomLeftAfterJoin;
                                             "!quiet:example.org" := roomQuiet ]})
                                  kv.1 = false) ∅;
        Leave := ∅ |}).
Proof.
  assert (H1 : "s72" ≠ "") by done.
  assert (H2 : range_order ["!quiet:example.org"; "!tea:example.org"]
                 (Join (respOf {[ "!tea:example.org" := roomLeftAfterJoin;
                                  "!quiet:example.org" := roomQuiet ]}))).
  { apply range_order_check; [by apply (bool_decide_unpack _)|].
    vm_compute. reflexivity. }
  split; [exact H1|]. split; [exact H2|].
  exact (shouldProcessResponse_is_filter syncer
           (respOf {[ "!tea:example.org" := roomLeftAfterJoin;
                      "!quiet:example.org" := roomQuiet ]})
           "s72" ["!quiet:example.org"; "!tea:example.org"] H1 H2).
Defined.

(** X2. The order in which the runtime ranges over the joined rooms has
    no influence: for two orders that it may take, the scan leaves the
    same response, and [ProcessResponse] gives the same result when the
    emission loops run in the same orders. *)
Theorem scan_order_irrelevant s res since o1 o2 :
  range_order (scanOrder o1) (Join res) →
  range_order (scanOrder o2) (Join res) →
  joinOrder o1 = joinOrder o2 →
  inviteOrder o1 = inviteOrder o2 →
  leaveOrder o1 = leaveOrder o2 →
  shouldProcessResponse s res since (scanOrder o1)
    = shouldProcessResponse s res since (scanOrder o2) ∧
  ProcessResponse s res since o1 = ProcessResponse s res since o2.
Proof.
  intros H1 H2 Hj Hi Hl.
  assert (E : shouldProcessResponse s res since (scanOrder o1)
              = shouldProcessResponse s res since (scanOrder o2)).
  { unfold shouldProcessResponse. case_bool_decide; [done|].
    by rewrite !scanRooms_range_order. }
  split; [done|]. unfold ProcessResponse. rewrite E.
  destruct (shouldProcessResponse s res since (scanOrder o2)) as [[|] res'];
    [|done].
  unfold emitAll. by rewrite Hj, Hi, Hl.
Qed.

Lemma scan_order_irrelevant_witness :
  let res := respOf {[ "!tea:example.org" := roomLeftAfterJoin;
                       "!quiet:example.org" := roomQuiet ]} in
  let o1 := scanBothSendQuiet in
  let o2 := {| scanOrder := ["!tea:example.org"; "!quiet:example.org"];
               joinOrder := ["!quiet:example.org"];
               inviteOrder := []; leaveOrder := [] |} in
  range_order (scanOrder o1) (Join res) ∧
  range_order (scanOrder o2) (Join res) ∧
  shouldProcessResponse syncer res "s72" (scanOrder o1)
    = shouldProcessResponse syncer res "s72" (scanOrder o2) ∧
  ProcessResponse syncer res "s72" o1 = ProcessResponse syncer res "s72" o2.
Proof.
  intros res o1 o2.
  assert (H1 : range_order (scanOrder o1) (Join res)).
  { apply range_order_check; [by apply (bool_decide_unpack _)|].
    vm_compute. reflexivity. }
  assert (H2 : range_order (scanOrder o2) (Join res)).
  { apply range_order_check; [by apply (bool_decide_unpack _)|].
    vm_compute. reflexivity. }
  split; [exact H1|]. split; [exact H2|].
  exact (scan_order_irrelevant syncer res "s72" o1 o2 H1 H2
           eq_refl eq_refl eq_refl).
Defined.

(** A second scan finds nothing to delete when the first one covered
    the rooms it visits. *)
Lemma scanRooms_again u o1 o2 resp :
  (∀ k rd, k ∈ o2 → Join resp !! k = Some rd → k ∈ o1) →
  scanRooms u o2 (scanRooms u o1 resp) = scanRooms u o1 resp.
Proof.
  intros Hcov.
  destruct (scanRooms_frame u o2 (scanRooms u o1 resp)) as (En & Ea & Ep & El).
  assert (Hkept : ∀ k rd, k ∈ o2 →
            Join (scanRooms u o1 resp) !! k = Some rd →
            hasOwnJoin u (jTimeline rd) = false).
  { intros k rd Hk. rewrite scanRooms_Join.
    destruct (Join resp !! k) as [rd'|] eqn:Hr; [|done].
    rewrite bool_decide_eq_true_2 by by apply (Hcov k rd').
    simpl. destruct (hasOwnJoin u (jTimeline rd')) eqn:Hj; [done|].
    by intros [= <-]. }
  apply RespSync_eq; try done.
  - apply map_eq. intros k. rewrite (scanRooms_Join u o2).
    destruct (Join (scanRooms u o1 resp) !! k) as [rd|] eqn:Hr; [|done].
    case_bool_decide as Hk; [|done].
    by rewrite (Hkept k rd).
  - apply map_eq. intros k. rewrite (scanRooms_Invite u o2).
    destruct (Join (scanRooms u o1 resp) !! k) as [rd|] eqn:Hr; [|done].
    case_bool_decide as Hk; [|done].
    by rewrite (Hkept k rd).
Qed.

(** X3. The scan is idempotent: after a scan in an order that the
    runtime may take, a further [shouldProcessResponse] on the response
    it left, in whatever order, deletes nothing more. *)
Theorem shouldProcessResponse_idempotent s resp since o1 o2 :
  since ≠ "" →
  range_order o1 (Join resp) →
  shouldProcessResponse s
    (shouldProcessResponse s resp since o1).2 since o2
  = shouldProcessResponse s resp since o1.
Proof.
  intros Hs Hord. unfold shouldProcessResponse.
  rewrite bool_decide_eq_false_2 by done. simpl.
  rewrite scanRooms_again; [done|].
  intros k rd _ Hk. by apply (range_order_elem o1 (Join resp) k rd).
Qed.

Lemma shouldProcessResponse_idempotent_witness :
  let res := respOf {[ "!tea:example.org" := roomLeftAfterJoin;
                       "!quiet:example.org" := roomQuiet ]} in
  "s72" ≠ "" ∧
  range_order ["!quiet:example.org"; "!tea:example.org"] (Join res) ∧
  shouldProcessResponse syncer
    (shouldProcessResponse syncer res "s72"
       ["!quiet:example.org"; "!tea:example.org"]).2
    "s72" ["!tea:example.org"; "!quiet:example.org"]
  = shouldProcessResponse syncer res "s72"
      ["!quiet:example.org"; "!tea:example.org"].
Proof.
  intros res.
  assert (H1 : "s72" ≠ "") by done.
  assert (H2 : range_order ["!quiet:example.org"; "!tea:example.org"] (Join res)).
  { apply range_order_check; [by apply (bool_decide_unpack _)|].
    vm_compute. reflexivity. }
  split; [exact H1|]. split; [exact H2|].
  exact (shouldProcessResponse_idempotent syncer res "s72"
           ["!quiet:example.org"; "!tea:example.org"]
           ["!tea:example.org"; "!quiet:example.org"] H1 H2).
Defined.

(** ** The inner loop and the order of the timeline *)

Lemma hasOwnJoin_Permutation u tl tl' :
  tl ≡ₚ tl' → hasOwnJoin u tl = hasOwnJoin u tl'.
Proof.
  intros Hp. apply eq_true_iff_eq. rewrite !hasOwnJoin_spec.
  split; intros (e & He & ?); exists e; split; try done.
  - by rewrite <- Hp.
  - by rewrite Hp.
Qed.

(** X4. The inner loop of [shouldProcessResponse] decides by the events
    the timeline holds, not by their order: on two timelines that are
    rearrangements of each other it leaves the same response. *)
Theorem scanTimeline_order_irrelevant u r tl tl' resp :
  tl ≡ₚ tl' →
  scanTimeline u r tl (length tl) resp
    = scanTimeline u r tl' (length tl') resp.
Proof.
  intros Hp. destruct (Join resp !! r) as [rd|] eqn:Hr.
  - rewrite !(scanTimeline_spec _ _ _ _ _ rd) by done.
    rewrite !firstn_all. by rewrite (hasOwnJoin_Permutation u tl tl').
  - by rewrite !scanTimeline_absent.
Qed.

Lemma scanTimeline_order_irrelevant_witness :
  [joinEv; msgEv; leaveEv] ≡ₚ [leaveEv; joinEv; msgEv] ∧
  scanTimeline bot "!tea:example.org" [joinEv; msgEv; leaveEv]
    (length [joinEv; msgEv; leaveEv])
    (respOf {[ "!tea:example.org" := roomLeftAfterJoin ]})
  = scanTimeline bot "!tea:example.org" [leaveEv; joinEv; msgEv]
      (length [leaveEv; joinEv; msgEv])
      (respOf {[ "!tea:example.org" := roomLeftAfterJoin ]}).
Proof.
  assert (H : [joinEv; msgEv; leaveEv] ≡ₚ [leaveEv; joinEv; msgEv]).
  { symmetry. apply (Permutation_cons_append [joinEv; msgEv] leaveEv). }
  split; [exact H|].
  exact (scanTimeline_order_irrelevant bot "!tea:example.org"
           [joinEv; msgEv; leaveEv] [leaveEv; joinEv; msgEv]
           (respOf {[ "!tea:example.org" := roomLeftAfterJoin ]}) H).
Defined.

(** ** Runs of sends *)

Lemma sends_ret : sends (ret tt) [].
Proof.
  intros c. unfold ret. destruct c as [q [|]]; simpl; [done|].
  by rewrite app_nil_r.
Qed.

Lemma sends_send p : sends (send p) [p].
Proof. intros c. unfold send. by destruct (closed c). Qed.

Lemma sends_bind m1 m2 xs ys :
  sends m1 xs → sends m2 ys → sends (m1 >>> m2) (xs ++ ys).
Proof.
  intros H1 H2 c. unfold bind. rewrite H1.
  destruct (closed c) eqn:Hc.
  - destruct xs as [|x xs]; [|done]. rewrite H2, Hc. done.
  - rewrite H2. simpl. by rewrite <- app_assoc.
Qed.

Lemma sends_for_each (f : Event → Event) evs :
  sends (for_each evs (λ e, send (Some (f e)))) ((λ e, Some (f e)) <$> evs).
Proof.
  induction evs as [|e evs IH]; [apply sends_ret|].
  apply (sends_bind _ _ [Some (f e)]); [apply sends_send|apply IH].
Qed.

Lemma sends_for_range {V} (body : string → V → M unit)
    (block : string * V → list (option Event)) order (m : gmap string V) :
  (∀ k v, sends (body k v) (block (k, v))) →
  sends (for_range order m body) (entries order m ≫= block).
Proof.
  intros Hbody. induction order as [|k ks IH]; [apply sends_ret|].
  unfold entries. simpl. destruct (m !! k) as [v|]; simpl; [|apply IH].
  apply sends_bind; [apply Hbody|apply IH].
Qed.

Lemma sends_emitAll res o : sends (emitAll res o) (emitted res o).
Proof.
  unfold emitAll, emitted.
  apply sends_bind; [apply (sends_for_each id)|].
  apply sends_bind; [apply (sends_for_each id)|].
  apply sends_bind.
  { apply (sends_for_range _ joinedBlock). intros k v.
    unfold emitJoined, joinedBlock, stamped. simpl.
    apply sends_bind; [apply (sends_for_each (setRoomID k))|].
    apply sends_bind; apply (sends_for_each (setRoomID k)). }
  apply sends_bind.
  { apply (sends_for_range _ invitedBlock). intros k v.
    apply (sends_for_each (setRoomID k)). }
  apply (sends_for_range _ leftBlock). intros k v.
  apply (sends_for_each (setRoomID k)).
Qed.

Lemma emitted_non_nil res o : Forall (λ p, p ≠ None) (emitted res o).
Proof.
  apply Forall_forall. intros x Hx. unfold emitted in Hx.
  rewrite !elem_of_app in Hx.
  destruct Hx as [H|[H|[H|[H|H]]]].
  - by apply list_elem_of_fmap in H as (e & -> & _).
  - by apply list_elem_of_fmap in H as (e & -> & _).
  - apply list_elem_of_bind in H as (p & Hb & _).
    by apply joinedBlock_RoomID in Hb as (e & -> & _).
  - apply list_elem_of_bind in H as (p & Hb & _).
    by apply invitedBlock_RoomID in Hb as (e & -> & _).
  - apply list_elem_of_bind in H as (p & Hb & _).
    by apply leftBlock_RoomID in Hb as (e & -> & _).
Qed.

(** [ProcessResponse] for a non-empty [since], whatever the state of
    the channel. *)
Lemma ProcessResponse_cases s res since o :
  since ≠ "" →
  ProcessResponse s res since o =
    let res' := scanRooms (UserID s) (scanOrder o) res in
    if closed (eventsChan s)
    then (res', eventsChan s,
          match emitted res' o with
          | [] => None
          | _ :: _ => Some (ErrProcessResponsePanicked (UserID s) since
                              "send on closed channel")
          end)
    else (res', {| queue := queue (eventsChan s) ++ emitted res' o;
                   closed := false |}, None).
Proof.
  intros Hs. unfold ProcessResponse, shouldProcessResponse.
  rewrite bool_decide_eq_false_2 by done. simpl.
  rewrite (sends_emitAll _ o (eventsChan s)).
  destruct (closed (eventsChan s)); [|done].
  by destruct (emitted _ o).
Qed.

Lemma ProcessResponse_empty_since s res o :
  ProcessResponse s res "" o = (res, eventsChan s, None).
Proof. reflexivity. Qed.

(** X5. Whatever the response, the since value, the state of the
    channel and the orders of the loops, [ProcessResponse] only appends
    to the events channel: what was queued stays in front, every
    pointer it adds is non-nil, and it never closes the channel. *)
Theorem ProcessResponse_only_appends s res since o :
  ∃ sent,
    queue (ProcessResponse s res since o).1.2 = queue (eventsChan s) ++ sent ∧
    Forall (λ p, p ≠ None) sent ∧
    closed (ProcessResponse s res since o).1.2 = closed (eventsChan s).
Proof.
  destruct (decide (since = "")) as [->|Hs].
  - exists []. rewrite ProcessResponse_empty_since. simpl.
    by rewrite app_nil_r.
  - rewrite ProcessResponse_cases by done. simpl.
    destruct (closed (eventsChan s)) eqn:Hc; simpl.
    + exists []. by rewrite app_nil_r.
    + eexists. split; [done|]. split; [apply emitted_non_nil|done].
Qed.

(** X6. [ProcessResponse] returns an error in one case only: the since
    value is non-empty, the events channel is closed and the response,
    after the scan, has at least one event to send.  The error then
    names the user ID, the since value and the panic of the send;
    nothing has been sent, but the rooms that the scan drops have been
    deleted from the response all the same. *)
Theorem ProcessResponse_error s res since o :
  ((ProcessResponse s res since o).2 = None ∨
   (ProcessResponse s res since o).2
     = Some (ErrProcessResponsePanicked (UserID s) since
               "send on closed channel")) ∧
  ((ProcessResponse s res since o).2 ≠ None ↔
   since ≠ "" ∧ closed (eventsChan s) = true ∧
   emitted (scanRooms (UserID s) (scanOrder o) res) o ≠ []) ∧
  ((ProcessResponse s res since o).2 ≠ None →
   (ProcessResponse s res since o).1.2 = eventsChan s ∧
   (ProcessResponse s res since o).1.1
     = scanRooms (UserID s) (scanOrder o) res).
Proof.
  destruct (decide (since = "")) as [->|Hs].
  - rewrite ProcessResponse_empty_since. simpl.
    split; [by left|]. split; [|done]. split; [done|]. by intros [? _].
  - rewrite ProcessResponse_cases by done. simpl.
    destruct (closed (eventsChan s)) eqn:Hc; simpl.
    + destruct (emitted _ o) as [|x xs]; simpl.
      * split; [by left|]. split; [|done]. split; [done|]. by intros (_ & _ & ?).
      * split; [by right|]. split; [|done]. split; [done|]. done.
    + split; [by left|]. split; [|done]. split; [done|]. by intros (_ & ? & _).
Qed.



(** ** Nil pointers on the events channel *)

(** X8. Nil pointers on the events channel are taken silently.  When
    the channel holds nil pointers only, a run of [scanEvents], under
    any signals and any choices of the runtime, returns or is still
    waiting, and never ends in a fault: it has taken some of the nil
    pointers from the front of the queue, entered no callback, and left
    the registry, the lock and the closed flag of the channel as they
    were.  The recorded error is the one from before the run if no
    pointer was taken and nil as soon as one was taken: a fault
    recorded by an earlier run is lost. *)
Theorem scanEvents_nil_pointers ctx sig l choices log :
  Forall (λ p, p = None) (queue (events l)) →
  ∃ r k,
    scanEvents ctx sig l choices log = Returns r ∧
    scan_log r = log ∧
    listeners (scan_listener r) = listeners l ∧
    listenersRWMut (scan_listener r) = listenersRWMut l ∧
    closed (events (scan_listener r)) = closed (events l) ∧
    queue (events l) = replicate k None ++ queue (events (scan_listener r)) ∧
    err (scan_listener r) = match k with O => err l | S _ => None end.
Proof.
  revert l log.
  induction choices as [|n rest IH]; intros l log Hnil.
  { by exists (Selecting l log), O. }
  cbn [scanEvents].
  destruct (pick (readyCases sig (events l)) n) as [[| |]|].
  - destruct (queue (events l)) as [|e q] eqn:Hq.
    + destruct (closed (events l)) eqn:Hc.
      * exists (Exited l (err l) log), O. simpl. by rewrite ?Hq, ?Hc.
      * exists (Selecting l log), O. simpl. by rewrite ?Hq, ?Hc.
    + apply Forall_cons_1 in Hnil as [-> Hnil]. simpl.
      rewrite app_nil_r.
      destruct (IH (setErr None
                      (setEvents {| queue := q; closed := closed (events l) |} l))
                   log Hnil) as (r & k & Hr & ? & ? & ? & ? & Hk & He).
      exists r, (S k). simpl in *.
      do 5 (split; [done|]). split; [by rewrite <- Hk|]. by destruct k.
  - by exists (Exited l (err l) log), O.
  - by exists (Exited l (Some (ErrContext (ctxErr ctx))) log), O.
  - by exists (Selecting l log), O.
Qed.

Lemma scanEvents_nil_pointers_witness :
  let l := faultedListener {| queue := [None; None]; closed := true |} in
  let sig := {| cancelled := false; stopping := false |} in
  Forall (λ p, p = None) (queue (events l)) ∧
  ∃ r k,
    scanEvents background sig l [0%nat; 0%nat; 0%nat] [] = Returns r ∧
    scan_log r = [] ∧
    listeners (scan_listener r) = listeners l ∧
    listenersRWMut (scan_listener r) = listenersRWMut l ∧
    closed (events (scan_listener r)) = closed (events l) ∧
    queue (events l) = replicate k None ++ queue (events (scan_listener r)) ∧
    err (scan_listener r) = match k with O => err l | S _ => None end.
Proof.
  intros l sig.
  assert (H : Forall (λ p, p = None) (queue (events l))).
  { repeat constructor. }
  split; [exact H|].
  exact (scanEvents_nil_pointers background sig l [0%nat; 0%nat; 0%nat] [] H).
Defined.

(** The run of the witness: both nil pointers are taken, the closed
    channel is drained, and the fault recorded before is not returned. *)
Example scanEvents_closed_sample :
  scanEvents background {| cancelled := false; stopping := false |}
    (faultedListener {| queue := [None; None]; closed := true |})
    [0%nat; 0%nat; 0%nat] []
  = Returns (Exited (NewDefaultListener {| queue := []; closed := true |})
               None []).
Proof. reflexivity. Qed.

(** ** Registration *)

Lemma Lock_returns m m1 : Lock m = Returns m1 → m = unlocked.
Proof.
  unfold Lock. destruct m as [[|n] [|]]; simpl; try done.
Qed.

(** X11. [On] keeps the discipline of the write lock.  On a listener
    whose lock is free it returns with the lock free again and has
    appended the callback to the list of its event type, which for a
    type without a list starts as one nil slot; the lists of the other
    types, the events channel and the recorded error are as before.  While a reader or a
    writer holds the lock it waits and changes nothing.  It never ends
    in a fatal error. *)
Theorem On_write_lock l eType callback :
  (listenersRWMut l = unlocked →
   ∃ l' cl,
     On l eType callback = Returns l' ∧
     listenersRWMut l' = unlocked ∧
     listeners l' !! eType = Some (cl ++ [callback]) ∧
     (listeners l !! eType = None → cl = [None]) ∧
     (∀ old, listeners l !! eType = Some old → cl = old) ∧
     (∀ t, t ≠ eType → listeners l' !! t = listeners l !! t) ∧
     events l' = events l ∧ err l' = err l) ∧
  (listenersRWMut l ≠ unlocked → On l eType callback = Blocks) ∧
  (∀ msg, On l eType callback ≠ Fatal msg).
Proof.
  split; [|split].
  - intros Hm. rewrite On_unlocked by done.
    set (cl := match listeners l !! eType with
               | Some cl => cl
               | None => [None]
               end).
    exists (setListeners (<[eType := cl ++ [callback]]> (listeners l)) l), cl.
    split; [done|]. split; [done|].
    split; [apply lookup_insert_eq|].
    unfold EventListenerCallback in *.
    split; [intros Hn; unfold cl; by rewrite Hn|].
    split; [intros old Ho; unfold cl; by rewrite Ho|].
    split; [|done]. intros t Hne. by apply lookup_insert_ne.
  - intros Hm. unfold On. destruct (Lock (listenersRWMut l)) as [m1| |msg] eqn:HL.
    + by apply Lock_returns in HL.
    + done.
    + unfold Lock in HL. by destruct (listenersRWMut l) as [[|n] [|]].
  - intros msg. unfold On.
    destruct (listenersRWMut l) as [[|n] [|]]; simpl; done.
Qed.

Lemma filter_type_idemp (t : EventType) (regs : list (EventType * Fn)) :
  filter (λ p, p.1 = t) (filter (λ p, p.1 = t) regs)
    = filter (λ p, p.1 = t) regs.
Proof.
  induction regs as [|p regs IH]; [done|].
  rewrite filter_cons. case_decide as Hp; [|done].
  rewrite filter_cons. rewrite decide_True by done. by rewrite IH.
Qed.

(** X12. Registrations for different event types do not touch each
    other.  After any sequence of registrations on a new listener, the
    list kept for a type is the one that the registrations for this type
    alone would have built; there is no list for a type without a
    registration, and a list holds one slot more than the type has
    registrations.  Registration always returns, with the lock free,
    the events channel and the nil error of the new listener. *)
Theorem registrations_by_type ch regs t :
  ∃ l1 l2,
    registerAll (NewDefaultListener ch) regs = Returns l1 ∧
    registerAll (NewDefaultListener ch) (filter (λ p, p.1 = t) regs)
      = Returns l2 ∧
    listeners l1 !! t = listeners l2 !! t ∧
    (listeners l1 !! t = None ↔ registeredFor t regs = []) ∧
    (∀ cl, listeners l1 !! t = Some cl →
       length cl = S (length (registeredFor t regs))) ∧
    listenersRWMut l1 = unlocked ∧ events l1 = ch ∧ err l1 = None.
Proof.
  destruct (registerAll_stored regs (NewDefaultListener ch) [])
    as (l1 & Hreg1 & Hm1 & Hev1 & Her1 & Hl1); [done|done|].
  destruct (registerAll_stored (filter (λ p, p.1 = t) regs)
              (NewDefaultListener ch) [])
    as (l2 & Hreg2 & _ & _ & _ & Hl2); [done|done|].
  exists l1, l2. split; [done|]. split; [done|].
  simpl in Hl1, Hl2. rewrite Hl1, Hl2.
  unfold storedFor, registeredFor. rewrite filter_type_idemp.
  split; [done|].
  destruct (filter (λ p, p.1 = t) regs) as [|p ps]; simpl.
  - split; [done|]. split; [done|]. done.
  - split; [split; done|]. split; [|done].
    intros cl [= <-]. simpl. by rewrite !length_fmap.
Qed.

(** ** The loop of [call] *)

(** X13. The loop of [call] under its [recover] returns a nil error
    exactly when the list holds no nil callback and no callback panics
    on the event; every callback of the list has then been entered
    once, in the order of the list. *)
Theorem callAll_nil_error_iff cl e log :
  callAll cl e = (None, log) ↔
  ∃ fns, cl = Some <$> fns ∧ Forall (λ fn, fn_body fn e = None) fns ∧
         log = fn_name <$> fns.
Proof.
  split.
  - revert log. induction cl as [|[fn|] cl IH]; intros log H.
    + simpl in H. simplify_eq. by exists [].
    + cbn [callAll] in H. destruct (fn_body fn e) as [r|] eqn:Hfn; [done|].
      destruct (callAll cl e) as [er log1]. simplify_eq.
      destruct (IH log1 eq_refl) as (fns & -> & Hall & ->).
      exists (fn :: fns). split; [done|]. split; [by constructor|done].
    + done.
  - intros (fns & -> & Hall & ->). by apply callAll_returning.
Qed.

(** X14. When the loop of [call] returns an error, it has stopped at
    the first callback of the list that is nil or panics: the callbacks
    before it have been entered and have returned, the callbacks after
    it have not been entered, and the error carries the panic value of
    the faulting callback, or the nil dereference. *)
Theorem callAll_stops_at_first_fault cl e er log :
  callAll cl e = (Some er, log) →
  ∃ fns rest,
    Forall (λ fn, fn_body fn e = None) fns ∧
    ((cl = (Some <$> fns) ++ None :: rest ∧
      log = fn_name <$> fns ∧
      er = ErrCallPanicked
             "runtime error: invalid memory address or nil pointer dereference") ∨
     (∃ fn r,
        cl = (Some <$> fns) ++ Some fn :: rest ∧
        fn_body fn e = Some r ∧
        log = (fn_name <$> fns) ++ [fn_name fn] ∧
        er = ErrCallPanicked r)).
Proof.
  revert log. induction cl as [|[fn|] cl IH]; intros log H.
  - done.
  - cbn [callAll] in H. destruct (fn_body fn e) as [r|] eqn:Hfn.
    + simplify_eq. exists [], cl. split; [constructor|].
      right. by exists fn, r.
    + destruct (callAll cl e) as [er1 log1]. simplify_eq.
      destruct (IH log1 eq_refl) as (fns & rest & Hall & Hcase).
      exists (fn :: fns), rest. split; [by constructor|].
      destruct Hcase as [(-> & -> & ->)|(fn' & r & -> & Hr & -> & ->)].
      * by left.
      * right. by exists fn', r.
  - simpl in H. simplify_eq. exists [], cl. split; [constructor|]. by left.
Qed.

Lemma callAll_stops_at_first_fault_witness :
  callAll [Some printFn; Some boomFn; Some printFn] msgEv
    = (Some (ErrCallPanicked "boom"), ["print"; "boom"]) ∧
  ∃ fns rest,
    Forall (λ fn, fn_body fn msgEv = None) fns ∧
    (([Some printFn; Some boomFn; Some printFn]
        = (Some <$> fns) ++ None :: rest ∧
      ["print"; "boom"] = fn_name <$> fns ∧
      ErrCallPanicked "boom"
        = ErrCallPanicked
            "runtime error: invalid memory address or nil pointer dereference") ∨
     (∃ fn r,
        [Some printFn; Some boomFn; Some printFn]
          = (Some <$> fns) ++ Some fn :: rest ∧
        fn_body fn msgEv = Some r ∧
        ["print"; "boom"] = (fn_name <$> fns) ++ [fn_name fn] ∧
        ErrCallPanicked "boom" = ErrCallPanicked r)).
Proof.
  assert (H : callAll [Some printFn; Some boomFn; Some printFn] msgEv
              = (Some (ErrCallPanicked "boom"), ["print"; "boom"]))
    by reflexivity.
  split; [exact H|].
  exact (callAll_stops_at_first_fault
           [Some printFn; Some boomFn; Some printFn] msgEv
           (ErrCallPanicked "boom") ["print"; "boom"] H).
Defined.
